(** * Binned spectral likelihood engine of threeML (SpectrumLike and friends)

    The notebooks of this repository drive the [SpectrumLike] /
    [DispersionSpectrumLike] / [OGIPLike] plugins; the engine itself is not
    part of the notebook sources, so the parts below are modelled from the
    specification of the core (sections 4.1 to 4.5).

    Floating-point evaluation is modelled over the reals, with numerical
    failures made explicit: an operation that would raise or produce NaN
    returns [None]; the value minus infinity (log of an exact zero) is the
    [NegInf] constructor of [xreal]. *)

From Stdlib Require Import Reals Lra Lia List Bool Arith QArith Sorted.
From Stdlib Require Strings.String.
Import ListNotations.

(** Option (error) monad used by the partial numerical operations. *)
Notation "'let*' x ':=' c 'in' k" :=
  (match c with Some x => k | None => None end)
  (at level 200, x name, c at level 100, k at level 200).

Module LogLike.

Local Open Scope R_scope.

(** An evaluated floating-point quantity that is not NaN: a finite value or
    minus infinity. *)
Inductive xreal : Type :=
| Fin (r : R)
| NegInf.

(** [numpy.log]: finite on positive reals, minus infinity at exactly 0,
    NaN ([None]) on negative reals. *)
Definition log_x (y : R) : option xreal :=
  if Rlt_dec 0 y then Some (Fin (ln y))
  else if Req_EM_T y 0 then Some NegInf else None.

(** Multiplication of a (positive) count by an extended value. *)
Definition xscale (x : R) (v : xreal) : xreal :=
  match v with Fin r => Fin (x * r) | NegInf => NegInf end.

Definition xsub (v : xreal) (r : R) : xreal :=
  match v with Fin a => Fin (a - r) | NegInf => NegInf end.

Definition xadd (v w : xreal) : xreal :=
  match v, w with Fin a, Fin b => Fin (a + b) | _, _ => NegInf end.

(** [xlogy(x, y)] with the convention [0 * log 0 = 0]: when [x = 0] the
    logarithm is not evaluated at all. *)
Definition xlogy (x y : R) : option xreal :=
  if Req_EM_T x 0 then Some (Fin 0) else option_map (xscale x) (log_x y).

(** Modelled from the spec: the per-channel Poisson log-likelihood term of
    SpectrumLike, [counts*log(pred) - pred]
    (section 4.2, edge-case policy). *)
Definition poisson_term (counts : nat) (pred : R) : option xreal :=
  option_map (fun v => xsub v pred) (xlogy (INR counts) pred).

Definition opt_add (u v : option xreal) : option xreal :=
  let* a := u in let* b := v in Some (xadd a b).

(** Modelled from the spec: the SpectrumLike profile likelihood, row
    "Poisson / none (profile)": the background counts are maximised out
    analytically; the maximiser of [Poisson(S; M + b)] over [b] is
    [S - M], clamped at zero. *)
Definition profile_background (S : nat) (M : R) : R := Rmax 0 (INR S - M).

Definition profile_term (S : nat) (M : R) : option xreal :=
  poisson_term S (M + profile_background S M).

(** Modelled from the spec: the SpectrumLike likelihood, row
    "Poisson / Poisson spectrum (fixed)": background rate estimated from
    the background spectrum ([B] counts over exposure [tb]), scaled to the
    total observation by the exposure ratio; the joint term is the sum of
    the two Poisson log-pmfs. *)
Definition poisson_bkg_term (S : nat) (M ts : R) (B : nat) (tb : R)
  : option xreal :=
  if Req_EM_T tb 0 then None else
  let b := INR B / tb in
  opt_add (poisson_term S (M + ts * b)) (poisson_term B (tb * b)).

End LogLike.


(** ** Li & Ma significance (section 4.5) *)
Module LiMa.

Local Open Scope R_scope.

(** Partial floating-point operations: division by zero, the logarithm of
    a non-positive number and the square root of a negative number fail. *)
Definition div_x (x y : R) : option R :=
  if Req_EM_T y 0 then None else Some (x / y).

Definition ln_x (y : R) : option R :=
  if Rlt_dec 0 y then Some (ln y) else None.

Definition sqrt_x (y : R) : option R :=
  if Rlt_dec y 0 then None else Some (sqrt y).

(** [N_on * ln[((1+alpha)/alpha) * N_on/(N_on+N_off)]], with limiting value
    0 when [N_on = 0] (the logarithm is then not evaluated). *)
Definition on_term (a b alpha : R) : option R :=
  if Req_EM_T a 0 then Some 0 else
  let* c := div_x (1 + alpha) alpha in
  let* r := div_x a (a + b) in
  let* l := ln_x (c * r) in
  Some (a * l).

(** [N_off * ln[(1+alpha) * N_off/(N_on+N_off)]], limiting value 0 when
    [N_off = 0]. *)
Definition off_term (a b alpha : R) : option R :=
  if Req_EM_T b 0 then Some 0 else
  let* r := div_x b (a + b) in
  let* l := ln_x ((1 + alpha) * r) in
  Some (b * l).

(** Modelled from the spec: the Li & Ma significance of the Significance
    module, [sigma = sqrt 2 * (on_term + off_term)^(1/2)], with [alpha] the ratio of
    the total to the background exposure, negated when
    [N_on/t_on < N_off/t_off]. *)
Definition significance (n_on n_off : nat) (t_on t_off : R) : option R :=
  let a := INR n_on in
  let b := INR n_off in
  let* alpha := div_x t_on t_off in
  let* t1 := on_term a b alpha in
  let* t2 := off_term a b alpha in
  let* s := sqrt_x (t1 + t2) in
  let* rate_on := div_x a t_on in
  let* rate_off := div_x b t_off in
  Some (if Rlt_dec rate_on rate_off then - (sqrt 2 * s) else sqrt 2 * s).

End LiMa.


(** ** Channel grouping and rebinning (section 4.3) *)
Module Rebin.

Local Open Scope nat_scope.

Definition sum_list (l : list nat) : nat := fold_right Nat.add 0 l.

(** Modelled from the spec: the channel grouping behind [rebin_on_source] /
    [rebin_on_background].  Greedy left-to-right merge: channels are appended to the open group
    [cur] until its relevant counts reach [k]; returns the closed groups and
    the open group left over at the end of the spectrum. *)
Fixpoint greedy (k : nat) (cur : list nat) (l : list nat)
  : list (list nat) * list nat :=
  match l with
  | [] => ([], cur)
  | c :: l' =>
      let cur' := cur ++ [c] in
      if k <=? sum_list cur' then
        let '(gs, rest) := greedy k [] l' in (cur' :: gs, rest)
      else greedy k cur' l'
  end.

(** The final group that falls short is merged into the previous group. *)
Definition merge_tail (gs : list (list nat)) (rest : list nat)
  : list (list nat) :=
  match rest with
  | [] => gs
  | _ :: _ =>
      match rev gs with
      | [] => [rest]
      | g :: gs' => rev gs' ++ [g ++ rest]
      end
  end.

Definition group_channels (k : nat) (l : list nat) : list (list nat) :=
  let '(gs, rest) := greedy k [] l in merge_tail gs rest.

(** The stored channel-to-group map: channel [i] belongs to group
    [nth i map]. *)
Fixpoint index_map (g : nat) (gs : list (list nat)) : list nat :=
  match gs with
  | [] => []
  | x :: gs' => repeat g (length x) ++ index_map (S g) gs'
  end.

Record plugin := mk_plugin {
  counts : list nat;          (* observed total counts per channel *)
  bkg_counts : list nat;      (* background counts per channel *)
  mask : list bool;           (* active-channel mask *)
  rebinner : option (list nat) (* channel-to-group map when rebinned *)
}.

Inductive rebin_error := EmptySpectrum.

Inductive result (A : Type) : Type :=
| Ok (a : A)
| Err (e : rebin_error).
Arguments Ok {A} a.
Arguments Err {A} e.

Definition set_rebinner (p : plugin) (m : option (list nat)) : plugin :=
  mk_plugin (counts p) (bkg_counts p) (mask p) m.

(** Modelled from the spec: [rebin_on_source] / [rebin_on_background] of
    SpectrumLike.  Grouping driven by [relevant] counts; a spectrum whose relevant counts
    are all zero cannot be grouped and the request fails loudly. *)
Definition rebin_on (relevant : list nat) (k : nat) (p : plugin)
  : result plugin :=
  if sum_list relevant =? 0 then Err EmptySpectrum
  else Ok (set_rebinner p (Some (index_map 0 (group_channels k relevant)))).

Definition rebin_on_source (k : nat) (p : plugin) : result plugin :=
  rebin_on (counts p) k p.

Definition rebin_on_background (k : nat) (p : plugin) : result plugin :=
  rebin_on (bkg_counts p) k p.

Definition remove_rebinning (p : plugin) : plugin := set_rebinner p None.

(** A fallible call on the plugin: on failure the state is left as it was. *)
Definition run (op : plugin -> result plugin) (p : plugin)
  : result unit * plugin :=
  match op p with
  | Ok p' => (Ok tt, p')
  | Err e => (Err e, p)
  end.

(** The exposed view: channel count, counts and mask as seen by the
    likelihood. *)
Record view := mk_view {
  v_counts : list nat;
  v_bkg : list nat;
  v_mask : list bool
}.

Definition n_groups (m : list nat) : nat :=
  match m with [] => 0 | _ :: _ => S (last m 0) end.

Fixpoint group_sum (m : list nat) (l : list nat) (g : nat) : nat :=
  match m, l with
  | i :: m', c :: l' => (if i =? g then c else 0) + group_sum m' l' g
  | _, _ => 0
  end.

(** A group is active when one of its channels is active. *)
Fixpoint group_active (m : list nat) (l : list bool) (g : nat) : bool :=
  match m, l with
  | i :: m', b :: l' => ((i =? g) && b) || group_active m' l' g
  | _, _ => false
  end.

Definition view_of (p : plugin) : view :=
  match rebinner p with
  | None => mk_view (counts p) (bkg_counts p) (mask p)
  | Some m =>
      let gs := seq 0 (n_groups m) in
      mk_view (map (group_sum m (counts p)) gs)
              (map (group_sum m (bkg_counts p)) gs)
              (map (group_active m (mask p)) gs)
  end.

End Rebin.


(** ** Channel selection (section 4.3, [select] / [exclude]) *)
Module Selection.

Local Open Scope nat_scope.

(** A parsed selection item: the literal ["all"], a channel range
    ["cN1-cN2"] or an energy range ["Emin-Emax"]. *)
Inductive sel_item :=
| SelAll
| ChanRange (lo hi : nat)
| EnergyRange (emin emax : Q).

Definition is_all (it : sel_item) : bool :=
  match it with SelAll => true | _ => false end.

(** Channel [i] (with energy interval [bounds[i]]) is covered by an item;
    an energy range covers the channels whose interval meets it. *)
Definition covers (bounds : list (Q * Q)) (it : sel_item) (i : nat) : bool :=
  match it with
  | SelAll => true
  | ChanRange lo hi => (lo <=? i) && (i <=? hi)
  | EnergyRange e1 e2 =>
      match nth_error bounds i with
      | Some (lo, hi) => Qle_bool lo e2 && negb (Qle_bool hi e1)
      | None => false
      end
  end.

Definition covered_any (bounds : list (Q * Q)) (its : list sel_item) (i : nat)
  : bool :=
  existsb (fun it => covers bounds it i) its.

Fixpoint mapi_from (f : nat -> bool -> bool) (i : nat) (m : list bool)
  : list bool :=
  match m with
  | [] => []
  | b :: m' => f i b :: mapi_from f (S i) m'
  end.

(** Modelled from the spec: the selection half of
    [set_active_measurements]; unions the covered channels into the mask; ["all"] resets
    the mask to fully active. *)
Definition select (bounds : list (Q * Q)) (its : list sel_item) (m : list bool)
  : list bool :=
  if existsb is_all its then repeat true (length m)
  else mapi_from (fun i b => b || covered_any bounds its i) 0 m.

(** Modelled from the spec: the [exclude] half of
    [set_active_measurements]; subtracts the covered channels from the mask. *)
Definition exclude (bounds : list (Q * Q)) (its : list sel_item) (m : list bool)
  : list bool :=
  mapi_from (fun i b => b && negb (covered_any bounds its i)) 0 m.

Inductive call :=
| Select (its : list sel_item)
| Exclude (its : list sel_item).

Definition step (bounds : list (Q * Q)) (m : list bool) (c : call) : list bool :=
  match c with
  | Select its => select bounds its m
  | Exclude its => exclude bounds its m
  end.

Definition run_calls (bounds : list (Q * Q)) (cs : list call) (m : list bool)
  : list bool :=
  fold_left (step bounds) cs m.

(** A call that resets the mask: a selection containing ["all"]. *)
Definition resets (c : call) : bool :=
  match c with Select its => existsb is_all its | Exclude _ => false end.

Definition call_covers (bounds : list (Q * Q)) (c : call) (i : nat) : bool :=
  match c with Select its | Exclude its => covered_any bounds its i end.

Definition is_select (c : call) : bool :=
  match c with Select _ => true | Exclude _ => false end.

(** The polarity of the last call in [cs] that covers channel [i]. *)
Fixpoint last_touch (bounds : list (Q * Q)) (cs : list call) (i : nat)
  : option bool :=
  match cs with
  | [] => None
  | c :: cs' =>
      match last_touch bounds cs' i with
      | Some v => Some v
      | None => if call_covers bounds c i then Some (is_select c) else None
      end
  end.

End Selection.


(** ** Synthetic data generator (section 4.4, [get_simulated_dataset]) *)
Module Simulate.

Local Open Scope R_scope.

Inductive statistic := Poisson | Gaussian.

Record spectrum := mk_spectrum {
  sp_counts : list R;
  sp_errors : list R;
  sp_exposure : R;
  sp_stat : statistic
}.

(** Background configuration: none (profile likelihood), a fixed estimated
    spectrum, or a background plugin (by reference to its parameter set). *)
Inductive background :=
| NoBackground
| BkgSpectrum (b : spectrum)
| BkgPlugin (plugin_ref : nat).

Record plugin := mk_plugin {
  observation : spectrum;
  background_cfg : background;
  response_of : list (list R);
  mask_of : list bool
}.

(** The fixed likelihood dispatch of section 4.2. *)
Inductive likelihood_kind :=
| PoissonProfile | PoissonPoisson | PoissonGaussian | PoissonModeled
| GaussianLike.

Definition dispatch (p : plugin) : likelihood_kind :=
  match sp_stat (observation p), background_cfg p with
  | Gaussian, _ => GaussianLike
  | Poisson, NoBackground => PoissonProfile
  | Poisson, BkgSpectrum b =>
      match sp_stat b with Poisson => PoissonPoisson | Gaussian => PoissonGaussian end
  | Poisson, BkgPlugin _ => PoissonModeled
  end.

Fixpoint map2 (f : R -> R -> R) (u v : list R) : list R :=
  match u, v with
  | x :: u', y :: v' => f x y :: map2 f u' v'
  | _, _ => []
  end.

Section Sampling.

(** A seeded random generator threaded as explicit state. *)
Variable seed : Type.
Variable draw_poisson : seed -> R -> R * seed.
Variable draw_normal : seed -> R -> R -> R * seed.

Definition draw (st : statistic) (s : seed) (mu err : R) : R * seed :=
  match st with
  | Poisson => draw_poisson s mu
  | Gaussian => draw_normal s mu err
  end.

(** One draw per active channel; a masked channel keeps its counts. *)
Fixpoint draw_channels (st : statistic) (s : seed)
  (chans : list (bool * R * R * R)) : list R * seed :=
  match chans with
  | [] => ([], s)
  | (act, mu, err, old) :: rest =>
      let (x, s1) := if act then draw st s mu err else (old, s) in
      let (xs, s2) := draw_channels st s1 rest in
      (x :: xs, s2)
  end.

Definition redraw (s : seed) (sp : spectrum) (means : list R) (mask : list bool)
  : spectrum * seed :=
  let (c, s') := draw_channels (sp_stat sp) s
                   (combine (combine (combine mask means) (sp_errors sp))
                            (sp_counts sp)) in
  (mk_spectrum c (sp_errors sp) (sp_exposure sp) (sp_stat sp), s').

(** Modelled from the spec: [get_simulated_dataset] of SpectrumLike;
    total counts drawn around
    [predicted_source + predicted_background]; a companion draw of the
    background spectrum, with its own exposure and statistic, when the
    background is an estimated spectrum. *)
Definition get_simulated_dataset (s : seed) (src_counts bkg_rate : list R)
  (p : plugin) : plugin * seed :=
  let obs := observation p in
  let means := map2 (fun m b => m + b * sp_exposure obs) src_counts bkg_rate in
  let (obs', s1) := redraw s obs means (mask_of p) in
  match background_cfg p with
  | BkgSpectrum b =>
      let (b', s2) := redraw s1 b (map (fun r => r * sp_exposure b) bkg_rate)
                        (mask_of p) in
      (mk_plugin obs' (BkgSpectrum b') (response_of p) (mask_of p), s2)
  | cfg => (mk_plugin obs' cfg (response_of p) (mask_of p), s1)
  end.

End Sampling.

(** The plugin with its observed (and estimated background) counts
    replaced, everything else kept. *)
Definition with_counts (p : plugin) (c cb : list R) : plugin :=
  let obs := observation p in
  mk_plugin (mk_spectrum c (sp_errors obs) (sp_exposure obs) (sp_stat obs))
    (match background_cfg p with
     | BkgSpectrum b =>
         BkgSpectrum (mk_spectrum cb (sp_errors b) (sp_exposure b) (sp_stat b))
     | cfg => cfg
     end)
    (response_of p) (mask_of p).

End Simulate.

(** ** Forward folding through the response (section 4.1) *)
Module Fold.

Local Open Scope Q_scope.

Record response := mk_response {
  grid : list Q;            (* true-energy grid, M points *)
  eff_area : list Q;        (* effective area per true-energy sub-bin *)
  kernel : list (list Q);   (* dispersion matrix, one row per channel *)
  exposure : Q
}.

(** Model error surfaced to the caller: the index and energy of a grid
    point where the flux function is negative. *)
Inductive fold_error := NegativeFlux (index : nat) (energy : Q).

Inductive fold_result :=
| FOk (predicted : list Q)
| FErr (e : fold_error).

Fixpoint first_negative (f : Q -> Q) (i : nat) (es : list Q)
  : option (nat * Q) :=
  match es with
  | [] => None
  | e :: es' => if negb (Qle_bool 0 (f e)) then Some (i, e)
                else first_negative f (S i) es'
  end.

(** Trapezoidal quadrature over the sub-bins of the grid. *)
Fixpoint trapz (f : Q -> Q) (es : list Q) : list Q :=
  match es with
  | e0 :: ((e1 :: _) as rest) => (f e0 + f e1) / 2 * (e1 - e0) :: trapz f rest
  | _ => []
  end.

Fixpoint dot (u v : list Q) : Q :=
  match u, v with
  | x :: u', y :: v' => x * y + dot u' v'
  | _, _ => 0
  end.

Fixpoint qmap2 (f : Q -> Q -> Q) (u v : list Q) : list Q :=
  match u, v with
  | x :: u', y :: v' => f x y :: qmap2 f u' v'
  | _, _ => []
  end.

(** Modelled from the spec: forward folding of a flux function through the
    response (SpectrumLike / DispersionSpectrumLike). *)
Definition fold (r : response) (f : Q -> Q) : fold_result :=
  match first_negative f 0 (grid r) with
  | Some (i, e) => FErr (NegativeFlux i e)
  | None =>
      let w := qmap2 Qmult (eff_area r) (trapz f (grid r)) in
      FOk (map (fun row => exposure r * dot row w) (kernel r))
  end.

End Fold.


(** ** Removal of glitch bins from a Bayesian-blocks binning
    (notebook grb080916C, the cell building [bad_bins] and [edges]) *)
Module TimeBins.

Local Open Scope Q_scope.

(** A time bin [(start, stop)]; its width is [stop - start]. *)
Definition width (b : Q * Q) : Q := snd b - fst b.

(** The threshold [5E-2] of the notebook. *)
Definition min_width : Q := 5 # 100.

Definition is_narrow (b : Q * Q) : bool := negb (Qle_bool min_width (width b)).

(** [for i, w in enumerate(n3.bins.widths): if w < 5E-2: bad_bins.append(i)] *)
Fixpoint bad_bins_from (i : nat) (bins : list (Q * Q)) : list nat :=
  match bins with
  | [] => []
  | b :: bs => if is_narrow b then i :: bad_bins_from (S i) bs
               else bad_bins_from (S i) bs
  end.

(** [for i, b in enumerate(n3.bins): if i not in bad_bins: edges.append(b.stop)] *)
Fixpoint good_stops (i : nat) (bad : list nat) (bins : list (Q * Q)) : list Q :=
  match bins with
  | [] => []
  | b :: bs => if existsb (Nat.eqb i) bad then good_stops (S i) bad bs
               else snd b :: good_stops (S i) bad bs
  end.

(** [edges = [n3.bins.starts[0]]] followed by the loop above; indexing the
    first start of an empty binning raises ([None]). *)
Definition custom_edges (bins : list (Q * Q)) : option (list Q) :=
  match bins with
  | [] => None
  | b0 :: _ => Some (fst b0 :: good_stops 0 (bad_bins_from 0 bins) bins)
  end.

(** [starts = edges[:-1]], [stops = edges[1:]]: the arguments passed to
    [create_time_bins(starts, stops, method='custom')]. *)
Definition spike_free_bins (bins : list (Q * Q)) : option (list Q * list Q) :=
  match custom_edges bins with
  | None => None
  | Some edges => Some (removelast edges, tl edges)
  end.

(** Bins in time order: each bin has [start <= stop] and ends no later
    than the next one starts. *)
Fixpoint ordered_bins (bins : list (Q * Q)) : Prop :=
  match bins with
  | [] => True
  | b :: bs =>
      fst b <= snd b /\
      match bs with [] => True | b' :: _ => snd b <= fst b' end /\
      ordered_bins bs
  end.

(** Bins that tile the interval: each one starts where the previous one
    stops. *)
Fixpoint contiguous (bins : list (Q * Q)) : Prop :=
  match bins with
  | b :: ((b' :: _) as bs) => snd b = fst b' /\ contiguous bs
  | _ => True
  end.

(** The bins kept by the spike removal (not in [bad_bins]). *)
Definition wide (b : Q * Q) : bool := negb (is_narrow b).

End TimeBins.

(** ** The [Powerlaw] function of the configuration notebook
    ([Powerlaw.evaluate]: [K * np.power(np.divide(x, piv), index)]) *)
Module PowerLaw.

Local Open Scope R_scope.

(** A double as the model sees it: a finite value, kept as an exact real
    (rounding, overflow and underflow of finite operations are not
    modelled, so only properties that hold exactly in IEEE arithmetic are
    stated about it), negative zero, the two infinities, or nan.  The
    arguments [x], [K], [piv] and [index] are finite, a zero [piv] is
    [+0.0]. *)
Inductive fl :=
| Num (r : R)
| MZero
| PInf
| MInf
| NaN.

(** [e] is an odd integer. *)
Definition odd_int (e : R) : bool :=
  if Req_EM_T (IZR (Int_part e)) e then Z.odd (Int_part e) else false.

(** [np.divide(x, piv)]: a zero pivot gives a signed infinity, or nan for
    [x = 0] (with a warning, not an error); [0 / piv] is [-0.0] for a
    negative pivot. *)
Definition np_divide (x piv : R) : fl :=
  if Req_EM_T piv 0 then
    (if Rlt_dec 0 x then PInf else if Rlt_dec x 0 then MInf else NaN)
  else if Req_EM_T x 0 then (if Rlt_dec piv 0 then MZero else Num 0)
  else Num (x / piv).

(** [np.power(b, e)] for a finite exponent, as C's [pow]: [1] for a zero
    exponent whatever the base; nan stays nan; for an infinite or zero
    base the IEEE limits, signed when the exponent is an odd integer; a
    positive base gives [b ** e]; a negative base the signed power when
    the exponent is an integer, nan otherwise. *)
Definition np_power (b : fl) (e : R) : fl :=
  if Req_EM_T e 0 then Num 1 else
  match b with
  | NaN => NaN
  | PInf => if Rlt_dec 0 e then PInf else Num 0
  | MInf =>
      if Rlt_dec 0 e then (if odd_int e then MInf else PInf)
      else (if odd_int e then MZero else Num 0)
  | MZero =>
      if Rlt_dec 0 e then (if odd_int e then MZero else Num 0)
      else (if odd_int e then MInf else PInf)
  | Num r =>
      if Rlt_dec 0 r then Num (Rpower r e)
      else if Req_EM_T r 0 then (if Rlt_dec 0 e then Num 0 else PInf)
      else if Req_EM_T (IZR (Int_part e)) e then
        Num ((if Z.even (Int_part e) then 1 else -1) * Rpower (- r) e)
      else NaN
  end.

(** [K * v] for a finite [K]; a zero result is reported as the value [0]
    whatever its sign. *)
Definition fl_scale (K : R) (v : fl) : fl :=
  match v with
  | Num r => Num (K * r)
  | MZero => Num 0
  | PInf => if Rlt_dec 0 K then PInf else if Rlt_dec K 0 then MInf else NaN
  | MInf => if Rlt_dec 0 K then MInf else if Rlt_dec K 0 then PInf else NaN
  | NaN => NaN
  end.

(** [Powerlaw.evaluate(self, x, K, piv, index)]. *)
Definition evaluate (x K piv index : R) : fl :=
  fl_scale K (np_power (np_divide x piv) index).

End PowerLaw.


(** ** Download of the public HAWC Crab data set (the [get_hawc_file]
    cell of the HAWC example and the two calls and asserts after it) *)
Module HawcDownload.

Import String.
Local Open Scope string_scope.

(** The local file system (path and content of each file) and the log of
    the HTTP requests sent. *)
Record world := {
  files : list (string * string);
  requests : list string
}.

(** [os.path.exists(path)] *)
Definition path_exists (w : world) (path : string) : bool :=
  existsb (fun e => String.eqb (fst e) path) (files w).

(** Content of the file at [path], if any. *)
Definition read_file (w : world) (path : string) : option string :=
  option_map snd (List.find (fun e => String.eqb (fst e) path) (files w)).

(** [with open(path, 'wb') as f: shutil.copyfileobj(body, f)]: the file is
    created or truncated and receives [body]. *)
Definition write_file (w : world) (path body : string) : world :=
  {| files := (path, body)
              :: List.filter (fun e => negb (String.eqb (fst e) path)) (files w);
     requests := requests w |}.

Definition url : string :=
  "https://data.hawc-observatory.org/datasets/crab_data/public_data/crab_2017/".

(** What [requests.get(url + filename, verify=False, stream=True)] and
    the streamed copy do: the request raises before anything is opened; or
    the whole body (whatever the HTTP status, which is not checked) is
    copied; or the stream breaks during [shutil.copyfileobj], after
    [open(odir + filename, 'wb')] has created or truncated the file, which
    is left with the part already copied. *)
Inductive response :=
| ConnectError
| Complete (body : string)
| Interrupted (partial : string).

Section Download.

(** The outcome of downloading a URL. *)
Variable fetch : string -> response.

(** [get_hawc_file(filename, odir, overwrite)]: the new state and the
    returned path, or [None] when the call raised. *)
Definition get_hawc_file (filename odir : string) (overwrite : bool) (w : world)
  : world * option string :=
  if overwrite || negb (path_exists w (odir ++ filename)) then
    let w1 := {| files := files w; requests := (url ++ filename) :: requests w |} in
    match fetch (url ++ filename) with
    | ConnectError => (w1, None)
    | Complete body => (write_file w1 (odir ++ filename) body, Some (odir ++ filename))
    | Interrupted partial => (write_file w1 (odir ++ filename) partial, None)
    end
  else (w, Some (odir ++ filename)).

Definition maptree_file : string := "HAWC_9bin_507days_crab_data.hd5".
Definition response_file : string := "HAWC_9bin_507days_crab_response.hd5".
Definition odir : string := "./".

(** The cell: [maptree = get_hawc_file(maptree, odir)],
    [response = get_hawc_file(response, odir)]. *)
Definition fetch_crab_data (w : world) : world * option (string * string) :=
  match get_hawc_file maptree_file odir false w with
  | (w1, None) => (w1, None)
  | (w1, Some maptree) =>
      match get_hawc_file response_file odir false w1 with
      | (w2, None) => (w2, None)
      | (w2, Some response) => (w2, Some (maptree, response))
      end
  end.

End Download.

(** A server answering every request with the same body, and an empty
    working directory. *)
Definition ok_fetch (u : string) : response := Complete "hd5".

Definition empty_world : world := {| files := []; requests := [] |}.

End HawcDownload.


(** ** Selection of the sources to plot (the plotting loop over
    [model.point_sources] of the HAWC example) *)
Module SourcePlot.

Import String.
Local Open Scope string_scope.

(** Python's [pat in s] on strings: [pat] occurs in [s]. *)
Fixpoint contains (pat s : string) : bool :=
  String.prefix pat s ||
  match s with EmptyString => false | String _ s' => contains pat s' end.

(** A point source: its name and the names of its spectral components. *)
Record point_source := {
  source_name : string;
  components : list string
}.

(** A line drawn by [ax.loglog]: the total spectrum, labelled with the
    source name, or a dashed component, labelled
    [f"{component_name} of {source_name}"]. *)
Inductive plot_line :=
| Total (name : string)
| Component (component_name name : string).

(** The body of [if src in source_name:]. *)
Definition plot_source (ps : point_source) : list plot_line :=
  Total (source_name ps)
  :: (if Nat.ltb 1 (List.length (components ps))
      then List.map (fun c => Component c (source_name ps)) (components ps)
      else []).

(** [for src in src_to_plot: if src in source_name: ...] *)
Fixpoint plot_for_patterns (pats : list string) (ps : point_source)
  : list plot_line :=
  match pats with
  | [] => []
  | p :: pats' =>
      (if contains p (source_name ps) then plot_source ps else [])
      ++ plot_for_patterns pats' ps
  end.

(** [for source_name, point_source in model.point_sources.items(): ...] *)
Definition plot_sources (pats : list string) (srcs : list point_source)
  : list plot_line :=
  List.flat_map (plot_for_patterns pats) srcs.

Definition src_to_plot : list string := ["Crab"; "PSR_J0534p2200"].

(** The source a drawn line belongs to. *)
Definition line_source (l : plot_line) : string :=
  match l with Total n => n | Component _ n => n end.

Definition is_total (l : plot_line) : bool :=
  match l with Total _ => true | Component _ _ => false end.

(** A source whose name contains both patterns, with two components. *)
Definition crab_pulsar : point_source :=
  {| source_name := "Crab_PSR_J0534p2200"; components := ["main"; "cutoff"] |}.

End SourcePlot.

(** ** Gathering of the parameter variates in [go] (Bayesian tutorial):
    [for par in fitfun.parameters.values(): if par.free: ...] *)
Module Variates.

Import String.
Local Open Scope nat_scope.

(** A parameter of the fitted function: its name, its path in the model
    and whether it is free. *)
Record parameter := {
  name : string;
  path : string;
  free : bool
}.

(** [arguments[k] = v] on a dict, kept as an association list in
    insertion order: an existing key keeps its place and gets the new
    value, a new key is appended. *)
Fixpoint dict_set {V : Type} (d : list (string * V)) (k : string) (v : V)
  : list (string * V) :=
  match d with
  | [] => [(k, v)]
  | (k', v') :: d' =>
      if String.eqb k' k then (k, v) :: d' else (k', v') :: dict_set d' k v
  end.

Definition max_variates : nat := 1000.

Section Gather.

Context {A : Type}.

(** [ar.get_variates(par.path)]: the posterior samples of a parameter. *)
Variable get_variates : string -> list A.

(** The raw outputs of the random generator, one per draw. *)
Variable rand : nat -> nat.

(** [np.random.choice(a, size=size)]: [size] draws with replacement, the
    [k]-th at index [rand (st + k) mod len(a)]; the generator state
    advances by [size]. ([go] only calls it on more than 1000 samples, so
    the empty case, where numpy raises, is never reached.) *)
Definition choice (a : list A) (size st : nat) : list A * nat :=
  match a with
  | [] => ([], st)
  | d :: _ =>
      (map (fun k => nth (rand (st + k) mod List.length a) a d) (seq 0 size), st + size)
  end.

(** The loop of [go] building [arguments], from a given dict and
    generator state. *)
Fixpoint gather (pars : list parameter) (args : list (string * list A)) (st : nat)
  : list (string * list A) * nat :=
  match pars with
  | [] => (args, st)
  | p :: ps =>
      if free p then
        let v := get_variates (path p) in
        let (v', st') :=
          if max_variates <? List.length v then choice v max_variates st else (v, st) in
        gather ps (dict_set args (name p) v') st'
      else gather ps args st
  end.

(** [arguments = {}] followed by the loop. *)
Definition arguments (pars : list parameter) (st : nat) : list (string * list A) :=
  fst (gather pars [] st).

End Gather.

(** A fixed pivot and a free normalisation. *)
Definition sample_pars : list parameter :=
  [{| name := "K"%string; path := "fake.spectrum.main.shape.K"%string; free := true |};
   {| name := "piv"%string; path := "fake.spectrum.main.shape.piv"%string; free := false |}].

End Variates.

(* ================================================================== *)
(** * Properties *)

Module LogLikeFacts.
Import LogLike.
Local Open Scope R_scope.

Lemma xlogy_zero (y : R) : xlogy 0 y = Some (Fin 0).
Proof. unfold xlogy. destruct (Req_EM_T 0 0); [reflexivity | congruence]. Qed.

Lemma poisson_term_zero_counts (M : R) : poisson_term 0 M = Some (Fin (- M)).
Proof.
  unfold poisson_term. simpl INR. rewrite xlogy_zero. simpl. f_equal. f_equal. ring.
Qed.

Lemma poisson_term_zero_pred (S : nat) :
  (0 < S)%nat -> poisson_term S 0 = Some NegInf.
Proof.
  intros HS. unfold poisson_term, xlogy, log_x.
  destruct (Req_EM_T (INR S) 0) as [E|_].
  - apply lt_0_INR in HS. lra.
  - destruct (Rlt_dec 0 0) as [h|_]; [lra|].
    destruct (Req_EM_T 0 0) as [_|h]; [reflexivity | congruence].
Qed.

Lemma poisson_term_pos_pred (S : nat) (M : R) :
  0 < M -> exists r, poisson_term S M = Some (Fin r).
Proof.
  intros HM. unfold poisson_term, xlogy, log_x.
  destruct (Req_EM_T (INR S) 0); [eexists; reflexivity|].
  destruct (Rlt_dec 0 M); [eexists; reflexivity | lra].
Qed.

Lemma poisson_term_defined (S : nat) (M : R) :
  0 <= M -> poisson_term S M <> None.
Proof.
  intros HM. destruct (Rle_lt_or_eq_dec 0 M HM) as [Hp|He].
  - destruct (poisson_term_pos_pred S M Hp) as [r ->]. discriminate.
  - subst M. destruct S as [|S].
    + rewrite poisson_term_zero_counts. discriminate.
    + rewrite poisson_term_zero_pred by lia. discriminate.
Qed.

(** Claim C1.  Poisson channels use the limiting value of the log-pmf:
    with zero observed counts (and zero background counts) the term is
    exactly minus the predicted source counts, both in the profile
    configuration and with a fixed Poisson background; and predicted counts
    of exactly zero with nonzero observed counts give the limiting value
    minus infinity, never a numerical failure. *)
Theorem poisson_channel_limit_convention :
  (forall M : R, poisson_term 0 M = Some (Fin (- M))) /\
  (forall S : nat, (0 < S)%nat -> poisson_term S 0 = Some NegInf) /\
  (forall M : R, 0 <= M -> profile_term 0 M = Some (Fin (- M))) /\
  (forall (M ts tb : R), 0 < tb ->
     poisson_bkg_term 0 M ts 0 tb = Some (Fin (- M))).
Proof.
  split; [exact poisson_term_zero_counts|].
  split; [exact poisson_term_zero_pred|].
  split.
  - intros M HM. unfold profile_term, profile_background. simpl INR.
    rewrite Rmax_left by lra. replace (M + 0) with M by ring.
    apply poisson_term_zero_counts.
  - intros M ts tb Htb. unfold poisson_bkg_term.
    destruct (Req_EM_T tb 0) as [E|_]; [lra|].
    simpl INR. replace (0 / tb) with 0 by (field; lra).
    replace (M + ts * 0) with M by ring. replace (tb * 0) with 0 by ring.
    unfold opt_add. rewrite !poisson_term_zero_counts. simpl.
    f_equal. f_equal. ring.
Qed.

Lemma poisson_channel_limit_convention_witness :
  (0 < 4)%nat /\ poisson_term 4 0 = Some NegInf.
Proof.
  split; [lia|].
  apply (proj1 (proj2 poisson_channel_limit_convention)). lia.
Defined.

(** Claim C2.  In the profile configuration the background estimate is
    never negative, however far the predicted source counts exceed the
    observed counts (it is then exactly zero); the rate at which the
    logarithm is taken is never negative, and the term never fails. *)
Theorem profile_background_nonneg (S : nat) (M : R) :
  0 <= profile_background S M /\
  (INR S <= M -> profile_background S M = 0) /\
  0 <= M + profile_background S M /\
  profile_term S M <> None.
Proof.
  assert (HS : 0 <= INR S) by apply pos_INR.
  unfold profile_term, profile_background.
  assert (Hr : 0 <= M + Rmax 0 (INR S - M)).
  { destruct (Rle_dec 0 (INR S - M)).
    - rewrite Rmax_right by lra. lra.
    - rewrite Rmax_left by lra. lra. }
  split; [apply Rmax_l|].
  split; [intros H; apply Rmax_left; lra|].
  split; [exact Hr|].
  apply poisson_term_defined. exact Hr.
Qed.

Lemma profile_background_nonneg_witness :
  INR 2 <= 5 /\ profile_background 2 5 = 0.
Proof.
  assert (H : INR 2 <= 5) by (simpl; lra).
  split; [exact H|].
  exact (proj1 (proj2 (profile_background_nonneg 2 5)) H).
Defined.

End LogLikeFacts.

Module LiMaFacts.
Import LiMa.
Local Open Scope R_scope.

Lemma div_x_ok (x y : R) : y <> 0 -> div_x x y = Some (x / y).
Proof. intros H. unfold div_x. destruct (Req_EM_T y 0); [contradiction | reflexivity]. Qed.

Lemma ln_x_ok (y : R) : 0 < y -> ln_x y = Some (ln y).
Proof. intros H. unfold ln_x. destruct (Rlt_dec 0 y); [reflexivity | contradiction]. Qed.

Lemma sqrt_x_ok (y : R) : 0 <= y -> sqrt_x y = Some (sqrt y).
Proof. intros H. unfold sqrt_x. destruct (Rlt_dec y 0); [lra | reflexivity]. Qed.

Lemma ln_lower (x : R) : 0 < x -> 1 - / x <= ln x.
Proof.
  intros Hx. pose proof (exp_ineq1_le (ln (/ x))) as H.
  rewrite exp_ln in H by (apply Rinv_0_lt_compat; lra).
  rewrite ln_Rinv in H by lra. lra.
Qed.

Lemma ln_lower_strict (x : R) : 0 < x -> x <> 1 -> 1 - / x < ln x.
Proof.
  intros Hx H1.
  assert (Hi : 0 < / x) by (apply Rinv_0_lt_compat; lra).
  assert (Hn : ln (/ x) <> 0).
  { apply ln_neq_0; [|exact Hi]. intros E. apply H1.
    rewrite <- (Rinv_inv x), E. apply Rinv_1. }
  pose proof (exp_ineq1 (ln (/ x)) Hn) as H.
  rewrite exp_ln in H by exact Hi. rewrite ln_Rinv in H by lra. lra.
Qed.

Lemma xlnx_lower (a X : R) : 0 < a -> 0 < X -> a - a / X <= a * ln X.
Proof.
  intros Ha HX. replace (a - a / X) with (a * (1 - / X)) by (field; lra).
  apply Rmult_le_compat_l; [lra | apply ln_lower; exact HX].
Qed.

Lemma xlnx_lower_strict (a X : R) :
  0 < a -> 0 < X -> X <> 1 -> a - a / X < a * ln X.
Proof.
  intros Ha HX H1. replace (a - a / X) with (a * (1 - / X)) by (field; lra).
  apply Rmult_lt_compat_l; [lra | apply ln_lower_strict; assumption].
Qed.

Lemma on_term_zero (b alpha : R) : on_term 0 b alpha = Some 0.
Proof. unfold on_term. destruct (Req_EM_T 0 0); [reflexivity | congruence]. Qed.

Lemma off_term_zero (a alpha : R) : off_term a 0 alpha = Some 0.
Proof. unfold off_term. destruct (Req_EM_T 0 0); [reflexivity | congruence]. Qed.

Lemma on_term_pos (a b alpha : R) :
  0 < a -> 0 <= b -> 0 < alpha ->
  on_term a b alpha = Some (a * ln ((1 + alpha) / alpha * (a / (a + b)))).
Proof.
  intros Ha Hb Hal. unfold on_term.
  destruct (Req_EM_T a 0) as [E|_]; [lra|].
  rewrite div_x_ok by lra. rewrite div_x_ok by lra.
  rewrite ln_x_ok; [reflexivity|].
  apply Rmult_lt_0_compat; apply Rdiv_lt_0_compat; lra.
Qed.

Lemma off_term_pos (a b alpha : R) :
  0 <= a -> 0 < b -> 0 < alpha ->
  off_term a b alpha = Some (b * ln ((1 + alpha) * (b / (a + b)))).
Proof.
  intros Ha Hb Hal. unfold off_term.
  destruct (Req_EM_T b 0) as [E|_]; [lra|].
  rewrite div_x_ok by lra.
  rewrite ln_x_ok; [reflexivity|].
  apply Rmult_lt_0_compat; [lra | apply Rdiv_lt_0_compat; lra].
Qed.

Lemma terms_sum (a b alpha : R) :
  0 <= a -> 0 <= b -> 0 < alpha ->
  exists t1 t2, on_term a b alpha = Some t1 /\ off_term a b alpha = Some t2 /\
    0 <= t1 + t2 /\
    (a = alpha * b -> t1 + t2 = 0) /\
    (a <> alpha * b -> 0 < t1 + t2).
Proof.
  intros Ha Hb Hal.
  destruct (Req_dec a 0) as [Ea|Na]; destruct (Req_dec b 0) as [Eb|Nb].
  - subst a b. exists 0, 0. rewrite on_term_zero, off_term_zero.
    repeat split; try reflexivity; try lra.
    all: intros H; exfalso; apply H; ring.
  - subst a. exists 0, (b * ln (1 + alpha)). rewrite on_term_zero.
    rewrite off_term_pos by lra.
    replace ((1 + alpha) * (b / (0 + b))) with (1 + alpha) by (field; lra).
    assert (Hl : 0 < ln (1 + alpha))
      by (rewrite <- ln_1; apply ln_increasing; lra).
    assert (0 < b * ln (1 + alpha)) by (apply Rmult_lt_0_compat; lra).
    assert (0 < alpha * b) by (apply Rmult_lt_0_compat; lra).
    repeat split; try reflexivity; try lra.
  - subst b. exists (a * ln ((1 + alpha) / alpha)), 0.
    rewrite on_term_pos by lra. rewrite off_term_zero.
    replace ((1 + alpha) / alpha * (a / (a + 0))) with ((1 + alpha) / alpha)
      by (field; lra).
    assert (Hl : 0 < ln ((1 + alpha) / alpha)).
    { rewrite <- ln_1. apply ln_increasing; [lra|].
      apply (Rmult_lt_reg_r alpha); [lra|].
      replace ((1 + alpha) / alpha * alpha) with (1 + alpha) by (field; lra). lra. }
    assert (0 < a * ln ((1 + alpha) / alpha)) by (apply Rmult_lt_0_compat; lra).
    repeat split; try reflexivity; try lra.
    all: intros H; exfalso; rewrite Rmult_0_r in H; contradiction.
  - set (X1 := (1 + alpha) / alpha * (a / (a + b))).
    set (X2 := (1 + alpha) * (b / (a + b))).
    exists (a * ln X1), (b * ln X2).
    rewrite on_term_pos by lra. rewrite off_term_pos by lra.
    assert (HX1 : 0 < X1)
      by (unfold X1; apply Rmult_lt_0_compat; apply Rdiv_lt_0_compat; lra).
    assert (HX2 : 0 < X2)
      by (unfold X2; apply Rmult_lt_0_compat; [lra | apply Rdiv_lt_0_compat; lra]).
    assert (Q1 : a / X1 = alpha * (a + b) / (1 + alpha)) by (unfold X1; field; lra).
    assert (Q2 : b / X2 = (a + b) / (1 + alpha)) by (unfold X2; field; lra).
    assert (Hsum : a / X1 + b / X2 = a + b).
    { rewrite Q1, Q2. field. lra. }
    pose proof (xlnx_lower a X1 ltac:(lra) HX1) as L1.
    pose proof (xlnx_lower b X2 ltac:(lra) HX2) as L2.
    split; [reflexivity|]. split; [reflexivity|].
    split; [lra|]. split.
    + intros E. assert (E1 : X1 = 1) by (unfold X1; rewrite E; field; lra).
      assert (E2 : X2 = 1) by (unfold X2; rewrite E; field; lra).
      rewrite E1, E2, ln_1. ring.
    + intros NE. assert (NX1 : X1 <> 1).
      { intros E1. apply NE.
        assert (H : (1 + alpha) * a = X1 * (alpha * (a + b))) by (unfold X1; field; lra).
        rewrite E1 in H. lra. }
      pose proof (xlnx_lower_strict a X1 ltac:(lra) HX1 NX1). lra.
Qed.

Lemma rates_equal_iff (a b t_on t_off : R) :
  0 < t_on -> 0 < t_off -> (a = t_on / t_off * b <-> a / t_on = b / t_off).
Proof.
  intros Hon Hoff. split.
  - intros ->. field. lra.
  - intros E. replace a with (a / t_on * t_on) by (field; lra).
    rewrite E. field. lra.
Qed.

(** Claim C7.  For non-negative counts and positive exposures the Li & Ma
    significance is always defined (also when [N_on = 0] or [N_off = 0]),
    positive on an excess, negative on a deficit and zero when the two
    rates are equal. *)
Theorem li_ma_sign_convention (n_on n_off : nat) (t_on t_off : R) :
  0 < t_on -> 0 < t_off ->
  exists s, significance n_on n_off t_on t_off = Some s /\
    (INR n_off / t_off < INR n_on / t_on -> 0 < s) /\
    (INR n_on / t_on < INR n_off / t_off -> s < 0) /\
    (INR n_on / t_on = INR n_off / t_off -> s = 0).
Proof.
  intros Hon Hoff. unfold significance. cbv zeta.
  set (a := INR n_on). set (b := INR n_off).
  assert (Ha : 0 <= a) by apply pos_INR. assert (Hb : 0 <= b) by apply pos_INR.
  rewrite div_x_ok by lra. cbv beta iota.
  assert (Hal : 0 < t_on / t_off) by (apply Rdiv_lt_0_compat; lra).
  destruct (terms_sum a b (t_on / t_off) Ha Hb Hal)
    as (t1 & t2 & E1 & E2 & Hnn & Heq & Hne).
  rewrite E1, E2. cbv beta iota.
  rewrite sqrt_x_ok by exact Hnn. cbv beta iota.
  rewrite div_x_ok by lra. cbv beta iota.
  rewrite div_x_ok by lra. cbv beta iota.
  assert (Hs2 : 0 < sqrt 2) by (apply sqrt_lt_R0; lra).
  pose proof (rates_equal_iff a b t_on t_off Hon Hoff) as Hr.
  eexists. split; [reflexivity|].
  split; [|split].
  - intros Hlt. destruct (Rlt_dec (a / t_on) (b / t_off)); [lra|].
    assert (0 < t1 + t2) by (apply Hne; intros E; apply Hr in E; lra).
    apply Rmult_lt_0_compat; [exact Hs2 | apply sqrt_lt_R0; exact H].
  - intros Hlt. destruct (Rlt_dec (a / t_on) (b / t_off)); [|lra].
    assert (0 < t1 + t2) by (apply Hne; intros E; apply Hr in E; lra).
    assert (0 < sqrt 2 * sqrt (t1 + t2))
      by (apply Rmult_lt_0_compat; [exact Hs2 | apply sqrt_lt_R0; exact H]).
    lra.
  - intros Hq. apply Hr in Hq. rewrite (Heq Hq), sqrt_0, Rmult_0_r.
    destruct (Rlt_dec (a / t_on) (b / t_off)); ring.
Qed.

Lemma li_ma_sign_convention_witness :
  0 < 1 /\ 0 < 1 /\
  exists s, significance 3 0 1 1 = Some s /\
    (INR 0 / 1 < INR 3 / 1 -> 0 < s) /\
    (INR 3 / 1 < INR 0 / 1 -> s < 0) /\
    (INR 3 / 1 = INR 0 / 1 -> s = 0).
Proof.
  split; [exact Rlt_0_1|]. split; [exact Rlt_0_1|].
  apply (li_ma_sign_convention 3 0 1 1); exact Rlt_0_1.
Defined.

End LiMaFacts.

Module RebinFacts.
Import Rebin.
Local Open Scope nat_scope.

Example group_channels_ex :
  group_channels 10 [3; 4; 5; 0; 12; 1; 2] = [[3; 4; 5]; [0; 12; 1; 2]].
Proof. reflexivity. Qed.

Example view_rebinned_ex :
  match rebin_on_source 10 (mk_plugin [3; 4; 5; 0; 12; 1; 2] [1; 1; 1; 1; 1; 1; 1]
                              [true; true; true; true; true; true; true] None) with
  | Ok p => view_of p = mk_view [12; 15] [3; 4] [true; true]
  | Err _ => False
  end.
Proof. reflexivity. Qed.

Lemma sum_list_app (l1 l2 : list nat) :
  sum_list (l1 ++ l2) = sum_list l1 + sum_list l2.
Proof. induction l1 as [|x l1 IH]; simpl; [reflexivity | rewrite IH; lia]. Qed.

Lemma sum_list_concat (gs : list (list nat)) :
  sum_list (concat gs) = fold_right Nat.add 0 (map sum_list gs).
Proof.
  induction gs as [|g gs IH]; simpl; [reflexivity|].
  rewrite sum_list_app, IH. reflexivity.
Qed.

(** Invariants of the greedy pass, for an arbitrary open group [cur]. *)
Lemma greedy_spec (k : nat) (l cur : list nat) :
  (cur = [] \/ sum_list cur < k) ->
  let '(gs, rest) := greedy k cur l in
  concat gs ++ rest = cur ++ l /\
  Forall (fun g => g <> [] /\ k <= sum_list g) gs /\
  (rest = [] \/ sum_list rest < k).
Proof.
  revert cur. induction l as [|c l IH]; intros cur Hcur; simpl.
  - rewrite app_nil_r. auto.
  - destruct (Nat.leb_spec k (sum_list (cur ++ [c]))) as [Hk|Hk].
    + specialize (IH [] (or_introl eq_refl)).
      destruct (greedy k [] l) as [gs rest] eqn:E.
      destruct IH as (Hc & Hf & Hr). simpl.
      split; [|split; [|exact Hr]].
      * rewrite <- app_assoc, Hc. simpl. rewrite <- app_assoc. reflexivity.
      * constructor; [|exact Hf]. split; [|exact Hk].
        destruct cur; discriminate.
    + specialize (IH (cur ++ [c]) (or_intror Hk)).
      destruct (greedy k (cur ++ [c]) l) as [gs rest] eqn:E.
      destruct IH as (Hc & Hf & Hr). split; [|split; assumption].
      rewrite Hc, <- app_assoc. reflexivity.
Qed.

Lemma removelast_app_single {A : Type} (xs : list A) (y : A) :
  removelast (xs ++ [y]) = xs.
Proof.
  induction xs as [|x xs IH]; [reflexivity|].
  simpl. rewrite IH. destruct (xs ++ [y]) eqn:E; [|reflexivity].
  destruct xs; discriminate.
Qed.

Lemma concat_rev_app (gs' : list (list nat)) (g rest : list nat) :
  concat (rev gs' ++ [g ++ rest]) = concat (rev (g :: gs')) ++ rest.
Proof.
  simpl. rewrite !concat_app. simpl. rewrite !app_nil_r, app_assoc. reflexivity.
Qed.

Lemma group_channels_spec (k : nat) (l : list nat) :
  concat (group_channels k l) = l /\
  Forall (fun g => g <> []) (group_channels k l) /\
  Forall (fun g => k <= sum_list g) (removelast (group_channels k l)) /\
  (k <= sum_list l -> Forall (fun g => k <= sum_list g) (group_channels k l)).
Proof.
  unfold group_channels.
  pose proof (greedy_spec k l [] (or_introl eq_refl)) as G.
  destruct (greedy k [] l) as [gs rest] eqn:E.
  destruct G as (Hc & Hf & Hr). simpl in Hc.
  assert (Hsum : sum_list l = sum_list (concat gs) + sum_list rest)
    by (rewrite <- Hc, sum_list_app; reflexivity).
  unfold merge_tail. destruct rest as [|r rs].
  - rewrite app_nil_r in Hc.
    assert (Hall : Forall (fun g => k <= sum_list g) gs)
      by (eapply Forall_impl; [|exact Hf]; intros g [_ H]; exact H).
    split; [exact Hc|]. split; [eapply Forall_impl; [|exact Hf]; intros g [H _]; exact H|].
    split; [|intros _; exact Hall].
    clear -Hall. induction Hall as [|g gs Hg Hgs IH]; simpl; [constructor|].
    destruct gs; [constructor | constructor; assumption].
  - destruct Hr as [Hr|Hr]; [discriminate|].
    assert (Hfr : Forall (fun g => g <> [] /\ k <= sum_list g) (rev gs))
      by (apply Forall_rev; exact Hf).
    destruct (rev gs) as [|g gs'] eqn:Er.
    + assert (gs = []) by (rewrite <- (rev_involutive gs), Er; reflexivity).
      subst gs. simpl in *.
      split; [rewrite app_nil_r; exact Hc|]. split; [constructor; [discriminate | constructor]|].
      split; [constructor|]. intros H. lia.
    + apply Forall_cons_iff in Hfr. destruct Hfr as [[Hg1 Hg2] Hgs'].
      assert (Hgs : gs = rev (g :: gs')) by (rewrite <- Er, rev_involutive; reflexivity).
      split.
      * rewrite concat_rev_app, <- Hgs. exact Hc.
      * split; [|split].
        -- apply Forall_app. split.
           ++ apply Forall_rev. eapply Forall_impl; [|exact Hgs']. intros x [H _]; exact H.
           ++ constructor; [destruct g; [contradiction | discriminate] | constructor].
        -- rewrite removelast_app_single. apply Forall_rev.
           eapply Forall_impl; [|exact Hgs']. intros x [_ H]; exact H.
        -- intros _. apply Forall_app. split.
           ++ apply Forall_rev. eapply Forall_impl; [|exact Hgs']. intros x [_ H]; exact H.
           ++ constructor; [rewrite sum_list_app; lia | constructor].
Qed.

(** Claim C4.  For a spectrum whose relevant counts (total for
    [rebin_on_source], background for [rebin_on_background]) are not all
    zero, the stored grouping is the greedy left-to-right grouping of the
    channels: the groups are non-empty, contiguous and cover every channel
    in order; every group except possibly the last reaches [k]; and as soon
    as the spectrum holds at least [k] counts the short final group has been
    merged into the previous one, so every group reaches [k]. *)
Theorem rebin_groups_reach_threshold (k : nat) (p : plugin)
  (which : plugin -> list nat)
  (Hwhich : which = counts \/ which = bkg_counts)
  (Hnz : 0 < sum_list (which p)) :
  let gs := group_channels k (which p) in
  (exists p', rebin_on (which p) k p = Ok p' /\
     rebinner p' = Some (index_map 0 gs)) /\
  (which = counts -> rebin_on_source k p = rebin_on (which p) k p) /\
  (which = bkg_counts -> rebin_on_background k p = rebin_on (which p) k p) /\
  concat gs = which p /\
  Forall (fun g => g <> []) gs /\
  Forall (fun g => k <= sum_list g) (removelast gs) /\
  (k <= sum_list (which p) -> Forall (fun g => k <= sum_list g) gs).
Proof.
  cbv zeta. destruct (group_channels_spec k (which p)) as (H1 & H2 & H3 & H4).
  split.
  - eexists. unfold rebin_on.
    destruct (Nat.eqb_spec (sum_list (which p)) 0) as [E|_]; [lia|].
    split; reflexivity.
  - split; [intros ->; reflexivity|].
    split; [intros ->; reflexivity|].
    auto.
Qed.

Lemma rebin_groups_reach_threshold_witness :
  (counts = counts \/ counts = bkg_counts) /\
  0 < sum_list (counts (mk_plugin [3; 4; 5; 0; 12; 1; 2] [] [] None)) /\
  Forall (fun g => 10 <= sum_list g)
    (group_channels 10 (counts (mk_plugin [3; 4; 5; 0; 12; 1; 2] [] [] None))).
Proof.
  assert (Hw : counts = counts \/ counts = bkg_counts) by (left; reflexivity).
  assert (Hn : 0 < sum_list (counts (mk_plugin [3; 4; 5; 0; 12; 1; 2] [] [] None)))
    by (simpl; lia).
  split; [exact Hw|]. split; [exact Hn|].
  pose proof (rebin_groups_reach_threshold 10 (mk_plugin [3; 4; 5; 0; 12; 1; 2] [] [] None)
                counts Hw Hn) as H.
  cbv zeta in H. apply H. simpl. lia.
Defined.

Lemma rebin_on_keeps_data (relevant : list nat) (k : nat) (p p' : plugin) :
  rebin_on relevant k p = Ok p' ->
  counts p' = counts p /\ bkg_counts p' = bkg_counts p /\ mask p' = mask p.
Proof.
  unfold rebin_on. destruct (sum_list relevant =? 0); [discriminate|].
  intros H. inversion H. auto.
Qed.

Lemma remove_after_run (relevant : plugin -> list nat) (k : nat) (p : plugin) :
  remove_rebinning (snd (run (fun q => rebin_on (relevant q) k q) p)) =
  remove_rebinning p.
Proof.
  unfold run, rebin_on.
  destruct (sum_list (relevant p) =? 0); reflexivity.
Qed.

(** Claim C3.  Starting from an un-rebinned spectrum, [remove_rebinning]
    after [rebin_on_source k] (or [rebin_on_background k]), whether the
    rebinning succeeded or failed, gives back exactly the exposed view:
    same channels, counts, background counts and mask.  Rebinning stores a
    channel-to-group map and leaves the data untouched, and
    [remove_rebinning] is idempotent. *)
Theorem remove_rebinning_restores_view (k : nat) (p : plugin)
  (Hp : rebinner p = None) :
  view_of (remove_rebinning (snd (run (rebin_on_source k) p))) = view_of p /\
  view_of (remove_rebinning (snd (run (rebin_on_background k) p))) = view_of p /\
  (forall p', rebin_on_source k p = Ok p' ->
     counts p' = counts p /\ bkg_counts p' = bkg_counts p /\ mask p' = mask p /\
     exists m, rebinner p' = Some m) /\
  (forall q, remove_rebinning (remove_rebinning q) = remove_rebinning q) /\
  (forall q, view_of (remove_rebinning q) = mk_view (counts q) (bkg_counts q) (mask q)).
Proof.
  assert (Hv : view_of (remove_rebinning p) = view_of p)
    by (unfold view_of, remove_rebinning, set_rebinner; simpl; rewrite Hp; reflexivity).
  split; [unfold rebin_on_source; rewrite (remove_after_run counts k p); exact Hv|].
  split; [unfold rebin_on_background; rewrite (remove_after_run bkg_counts k p); exact Hv|].
  split; [|split; reflexivity].
  intros p' H. pose proof (rebin_on_keeps_data _ _ _ _ H) as (A & B & C).
  repeat split; try assumption.
  unfold rebin_on_source, rebin_on in H.
  destruct (sum_list (counts p) =? 0); [discriminate|].
  inversion H. eexists. reflexivity.
Qed.

Lemma remove_rebinning_restores_view_witness :
  rebinner (mk_plugin [0; 1; 7] [1; 0; 0] [true; false; true] None) = None /\
  view_of (remove_rebinning
     (snd (run (rebin_on_source 5) (mk_plugin [0; 1; 7] [1; 0; 0] [true; false; true] None))))
  = view_of (mk_plugin [0; 1; 7] [1; 0; 0] [true; false; true] None).
Proof.
  split; [reflexivity|].
  apply (remove_rebinning_restores_view 5
           (mk_plugin [0; 1; 7] [1; 0; 0] [true; false; true] None) eq_refl).
Defined.

End RebinFacts.

Module SelectionFacts.
Import Selection.
Local Open Scope nat_scope.

Lemma mapi_from_length f j m : length (mapi_from f j m) = length m.
Proof. revert j; induction m; intros j; simpl; [reflexivity | rewrite IHm; reflexivity]. Qed.

Lemma mapi_from_nth f j m i :
  nth_error (mapi_from f j m) i = option_map (f (j + i)) (nth_error m i).
Proof.
  revert j i. induction m as [|b m IH]; intros j [|i]; simpl; try reflexivity.
  - rewrite Nat.add_0_r. reflexivity.
  - rewrite IH. f_equal. f_equal. lia.
Qed.

Lemma step_nth bounds c m i :
  resets c = false ->
  nth_error (step bounds m c) i =
  option_map (fun b => if call_covers bounds c i then is_select c else b)
             (nth_error m i).
Proof.
  intros Hr. destruct c as [its|its]; simpl in *.
  - unfold select. rewrite Hr, mapi_from_nth. simpl.
    destruct (nth_error m i); simpl; [|reflexivity].
    destruct (covered_any bounds its i), b; reflexivity.
  - unfold exclude. rewrite mapi_from_nth. simpl.
    destruct (nth_error m i); simpl; [|reflexivity].
    destruct (covered_any bounds its i), b; reflexivity.
Qed.

Lemma step_length bounds c m : length (step bounds m c) = length m.
Proof.
  destruct c; simpl; [unfold select; destruct existsb; [apply repeat_length|]|unfold exclude];
  apply mapi_from_length.
Qed.

(** Claim C5.  Selections and exclusions are cumulative: after any
    sequence of calls none of which selects ["all"], channel [i] is active
    exactly when the last call covering it was a selection, or, if no call
    covered it, when it was active to begin with; a selection containing
    ["all"] makes every channel active. *)
Theorem selection_calls_cumulative (bounds : list (Q * Q)) (cs : list call)
  (m : list bool) (Hno : forallb (fun c => negb (resets c)) cs = true) :
  length (run_calls bounds cs m) = length m /\
  (forall i, nth_error (run_calls bounds cs m) i =
     option_map (fun b => match last_touch bounds cs i with
                          | Some v => v | None => b end) (nth_error m i)) /\
  (forall its m', existsb is_all its = true ->
     step bounds m' (Select its) = repeat true (length m')).
Proof.
  split; [|split].
  - unfold run_calls. revert m. induction cs as [|c cs IH]; intros m; [reflexivity|].
    simpl in Hno. apply andb_true_iff in Hno as [_ Hno].
    simpl. rewrite IH by exact Hno. apply step_length.
  - unfold run_calls. revert m. induction cs as [|c cs IH]; intros m i.
    + simpl. destruct (nth_error m i); reflexivity.
    + simpl in Hno. apply andb_true_iff in Hno as [Hc Hno].
      apply negb_true_iff in Hc.
      simpl. rewrite IH by exact Hno. rewrite step_nth by exact Hc.
      destruct (nth_error m i); simpl; [|reflexivity].
      destruct (last_touch bounds cs i); [reflexivity|].
      destruct (call_covers bounds c i); reflexivity.
  - intros its m' H. simpl. unfold select. rewrite H. reflexivity.
Qed.

Lemma selection_calls_cumulative_witness :
  forallb (fun c => negb (resets c))
    [Select [ChanRange 1 2]; Exclude [ChanRange 2 3]; Select [ChanRange 3 3]] = true /\
  run_calls [] [Select [ChanRange 1 2]; Exclude [ChanRange 2 3]; Select [ChanRange 3 3]]
    [true; false; false; false; false]
  = [true; true; false; true; false].
Proof.
  split; [reflexivity|].
  pose proof (selection_calls_cumulative []
     [Select [ChanRange 1 2]; Exclude [ChanRange 2 3]; Select [ChanRange 3 3]]
     [true; false; false; false; false] eq_refl) as [_ [H _]].
  apply nth_error_ext. intros i. rewrite H.
  destruct i as [|[|[|[|[|[|i]]]]]]; reflexivity.
Defined.

End SelectionFacts.

Module SimulateFacts.
Import Simulate.
Local Open Scope R_scope.

Lemma draw_channels_nth {seed : Type} dp dn (st : statistic) (s : seed)
  (chans : list (bool * R * R * R)) (i : nat) act mu err old :
  nth_error chans i = Some (act, mu, err, old) ->
  exists si, nth_error (fst (draw_channels seed dp dn st s chans)) i =
             Some (if act then fst (draw seed dp dn st si mu err) else old).
Proof.
  revert s i. induction chans as [|[[[a m] e] o] chans IH]; intros s i H.
  - destruct i; discriminate.
  - simpl.
    destruct (if a then draw seed dp dn st s m e else (o, s)) as [x s1] eqn:Ex.
    destruct (draw_channels seed dp dn st s1 chans) as [xs s2] eqn:Exs.
    destruct i as [|i]; simpl in H.
    + inversion H; subst. exists s. simpl.
      destruct act; [rewrite Ex; reflexivity | inversion Ex; reflexivity].
    + destruct (IH s1 i H) as [si Hi]. exists si. rewrite Exs in Hi. exact Hi.
Qed.

(** Claim C6.  [get_simulated_dataset] returns a plugin that differs from
    the original only in its observed counts (and the counts of an
    estimated background spectrum): same response, mask, exposures, errors,
    statistics and background configuration, hence the same likelihood
    dispatch; every active channel of the total spectrum is drawn with the
    sampler of the spectrum's statistic around its predicted counts, masked
    channels keep their counts; when the background is an estimated
    spectrum, its companion counts are drawn the same way with the
    background spectrum's own statistic, around the background rate times
    the background's own exposure. *)
Theorem simulated_dataset_same_configuration {seed : Type} dp dn (s : seed)
  (src bkg : list R) (p : plugin) :
  let '(p', _) := get_simulated_dataset seed dp dn s src bkg p in
  (exists c cb, p' = with_counts p c cb) /\
  response_of p' = response_of p /\
  mask_of p' = mask_of p /\
  dispatch p' = dispatch p /\
  (forall i act mu err old,
     nth_error (combine (combine (combine (mask_of p)
        (map2 (fun m b => m + b * sp_exposure (observation p)) src bkg))
        (sp_errors (observation p))) (sp_counts (observation p))) i
       = Some (act, mu, err, old) ->
     exists si, nth_error (sp_counts (observation p')) i =
       Some (if act then fst (draw seed dp dn (sp_stat (observation p)) si mu err)
             else old)) /\
  (forall b, background_cfg p = BkgSpectrum b ->
     exists b', background_cfg p' = BkgSpectrum b' /\
       sp_stat b' = sp_stat b /\ sp_exposure b' = sp_exposure b /\
       sp_errors b' = sp_errors b /\
       forall i act mu err old,
         nth_error (combine (combine (combine (mask_of p)
            (map (fun r => r * sp_exposure b) bkg)) (sp_errors b)) (sp_counts b)) i
           = Some (act, mu, err, old) ->
         exists si, nth_error (sp_counts b') i =
           Some (if act then fst (draw seed dp dn (sp_stat b) si mu err) else old)).
Proof.
  unfold get_simulated_dataset, redraw. cbv zeta.
  set (chans := combine (combine (combine (mask_of p)
        (map2 (fun m b => m + b * sp_exposure (observation p)) src bkg))
        (sp_errors (observation p))) (sp_counts (observation p))).
  pose proof (draw_channels_nth dp dn (sp_stat (observation p)) s chans) as Hn.
  destruct (draw_channels seed dp dn (sp_stat (observation p)) s chans)
    as [c s1] eqn:Ec.
  simpl in Hn.
  destruct p as [obs cfg resp msk]; simpl in *.
  destruct cfg as [|b|r]; simpl.
  - repeat split; [exists c, []; reflexivity | exact Hn | discriminate].
  - set (bchans := combine (combine (combine msk
          (map (fun r => r * sp_exposure b) bkg)) (sp_errors b)) (sp_counts b)).
    pose proof (draw_channels_nth dp dn (sp_stat b) s1 bchans) as Hb.
    destruct (draw_channels seed dp dn (sp_stat b) s1 bchans) as [cb s2].
    simpl in Hb.
    split; [exists c, cb; reflexivity|].
    split; [reflexivity|]. split; [reflexivity|]. split; [reflexivity|].
    split; [exact Hn|].
    intros b0 Hb0. injection Hb0 as <-.
    exists (mk_spectrum cb (sp_errors b) (sp_exposure b) (sp_stat b)).
    split; [reflexivity|]. split; [reflexivity|]. split; [reflexivity|].
    split; [reflexivity|]. exact Hb.
  - repeat split; [exists c, []; reflexivity | exact Hn | discriminate].
Qed.

Lemma simulated_dataset_same_configuration_witness :
  nth_error (combine (combine (combine [true; false]
     (map2 (fun m b => m + b * 1) [3; 4] [7; 8])) [0; 0]) [1; 2]) 0
    = Some (true, 3 + 7 * 1, 0, 1) /\
  background_cfg (mk_plugin (mk_spectrum [1; 2] [0; 0] 1 Poisson)
      (BkgSpectrum (mk_spectrum [5; 6] [1; 1] 2 Gaussian)) [] [true; false])
    = BkgSpectrum (mk_spectrum [5; 6] [1; 1] 2 Gaussian) /\
  nth_error (combine (combine (combine [true; false]
     (map (fun r => r * 2) [7; 8])) [1; 1]) [5; 6]) 0
    = Some (true, 7 * 2, 1, 5) /\
  let '(p', _) := get_simulated_dataset nat
      (fun s mu => (mu, S s)) (fun s mu err => (mu + err, S s)) 0%nat [3; 4] [7; 8]
      (mk_plugin (mk_spectrum [1; 2] [0; 0] 1 Poisson)
         (BkgSpectrum (mk_spectrum [5; 6] [1; 1] 2 Gaussian)) [] [true; false]) in
  dispatch p' = PoissonGaussian /\
  exists b', background_cfg p' = BkgSpectrum b' /\ sp_stat b' = Gaussian /\
    sp_exposure b' = 2 /\
    exists si, nth_error (sp_counts b') 0 =
      Some (fst (draw nat (fun s mu => (mu, S s)) (fun s mu err => (mu + err, S s))
                   Gaussian si (7 * 2) 1)).
Proof.
  assert (H1 : nth_error (combine (combine (combine [true; false]
     (map2 (fun m b => m + b * 1) [3; 4] [7; 8])) [0; 0]) [1; 2]) 0
    = Some (true, 3 + 7 * 1, 0, 1)) by reflexivity.
  assert (H2 : background_cfg (mk_plugin (mk_spectrum [1; 2] [0; 0] 1 Poisson)
      (BkgSpectrum (mk_spectrum [5; 6] [1; 1] 2 Gaussian)) [] [true; false])
    = BkgSpectrum (mk_spectrum [5; 6] [1; 1] 2 Gaussian)) by reflexivity.
  assert (H3 : nth_error (combine (combine (combine [true; false]
     (map (fun r => r * 2) [7; 8])) [1; 1]) [5; 6]) 0
    = Some (true, 7 * 2, 1, 5)) by reflexivity.
  split; [exact H1|]. split; [exact H2|]. split; [exact H3|].
  pose proof (simulated_dataset_same_configuration (seed := nat)
      (fun s mu => (mu, S s)) (fun s mu err => (mu + err, S s)) 0%nat [3; 4] [7; 8]
      (mk_plugin (mk_spectrum [1; 2] [0; 0] 1 Poisson)
         (BkgSpectrum (mk_spectrum [5; 6] [1; 1] 2 Gaussian)) [] [true; false]))
    as H.
  destruct (get_simulated_dataset nat _ _ _ _ _ _) as [p' s'].
  destruct H as (_ & _ & _ & Hd & _ & Hb).
  split; [exact Hd|].
  destruct (Hb _ H2) as (b' & Hb' & Hst & Hex & _ & Hch).
  exists b'. split; [exact Hb'|]. split; [exact Hst|]. split; [exact Hex|].
  exact (Hch 0%nat true (7 * 2) 1 5 H3).
Defined.

End SimulateFacts.

Module FoldFacts.
Import Fold.
Local Open Scope Q_scope.

Lemma Qplus_nonneg (x y : Q) : 0 <= x -> 0 <= y -> 0 <= x + y.
Proof. intros Hx Hy. apply (Qplus_le_compat 0 x 0 y) in Hx; [exact Hx | exact Hy]. Qed.

Lemma trapz_nonneg (f : Q -> Q) (es : list Q) :
  LocallySorted Qle es -> (forall e, In e es -> 0 <= f e) ->
  Forall (Qle 0) (trapz f es).
Proof.
  induction 1 as [|a|a b l Hs IH Hab]; intros Hf; simpl; [constructor | constructor|].
  constructor.
  - apply Qmult_le_0_compat.
    + apply Qmult_le_0_compat.
      * apply Qplus_nonneg; apply Hf; simpl; auto.
      * apply Qinv_le_0_compat. discriminate.
    + apply Qle_minus_iff in Hab. exact Hab.
  - apply IH. intros e He. apply Hf. simpl. auto.
Qed.

Lemma qmap2_mult_nonneg (u v : list Q) :
  Forall (Qle 0) u -> Forall (Qle 0) v -> Forall (Qle 0) (qmap2 Qmult u v).
Proof.
  intros Hu. revert v. induction Hu as [|x u Hx Hu IH]; intros v Hv; simpl;
    [constructor|].
  destruct Hv as [|y v Hy Hv]; constructor; [apply Qmult_le_0_compat; assumption|].
  apply IH. exact Hv.
Qed.

Lemma dot_nonneg (u v : list Q) :
  Forall (Qle 0) u -> Forall (Qle 0) v -> 0 <= dot u v.
Proof.
  intros Hu. revert v. induction Hu as [|x u Hx Hu IH]; intros v Hv; simpl;
    [apply Qle_refl|].
  destruct Hv as [|y v Hy Hv]; [apply Qle_refl|].
  apply Qplus_nonneg; [apply Qmult_le_0_compat; assumption | apply IH; exact Hv].
Qed.

Lemma first_negative_none (f : Q -> Q) (i : nat) (es : list Q) :
  (forall e, In e es -> 0 <= f e) -> first_negative f i es = None.
Proof.
  revert i. induction es as [|e es IH]; intros i Hf; simpl; [reflexivity|].
  assert (He : Qle_bool 0 (f e) = true) by (apply Qle_bool_iff, Hf; simpl; auto).
  rewrite He. simpl. apply IH. intros x Hx. apply Hf. simpl. auto.
Qed.

Lemma first_negative_some (f : Q -> Q) (i : nat) (es : list Q) j e :
  first_negative f i es = Some (j, e) ->
  exists d, j = (i + d)%nat /\ nth_error es d = Some e /\ f e < 0.
Proof.
  revert i. induction es as [|x es IH]; intros i H; simpl in H; [discriminate|].
  destruct (Qle_bool 0 (f x)) eqn:Hx; simpl in H.
  - destruct (IH (S i) H) as (d & -> & Hd & Hneg).
    exists (S d). split; [lia | split; assumption].
  - inversion H; subst. exists 0%nat. split; [lia|]. split; [reflexivity|].
    apply Qnot_le_lt. intros Hle. apply Qle_bool_iff in Hle. congruence.
Qed.

Lemma first_negative_found (f : Q -> Q) (i : nat) (es : list Q) e :
  In e es -> f e < 0 -> exists j e', first_negative f i es = Some (j, e').
Proof.
  intros Hin Hneg. destruct (first_negative f i es) as [[j e']|] eqn:E.
  - exists j, e'. reflexivity.
  - exfalso. revert i E. induction es as [|x es IH]; intros i E; [destruct Hin|].
    simpl in E. destruct (Qle_bool 0 (f x)) eqn:Hx; simpl in E; [|discriminate].
    destruct Hin as [<-|Hin].
    + apply Qle_bool_iff in Hx. apply (Qlt_not_le _ _ Hneg). exact Hx.
    + exact (IH Hin (S i) E).
Qed.

(** Claim C8.  On a sorted true-energy grid, with non-negative effective
    area, dispersion matrix and exposure, a flux function that is
    non-negative on the grid folds to non-negative predicted counts in every
    channel; a flux function that is negative somewhere on the grid is
    reported as a model error naming the grid point where it is negative,
    and no counts are returned (nothing is clipped). *)
Theorem fold_nonneg_or_model_error (r : response) (f : Q -> Q)
  (Hsorted : LocallySorted Qle (grid r))
  (Harea : Forall (Qle 0) (eff_area r))
  (Hkernel : Forall (Forall (Qle 0)) (kernel r))
  (Hexp : 0 <= exposure r) :
  ((forall e, In e (grid r) -> 0 <= f e) ->
     exists c, fold r f = FOk c /\ Forall (Qle 0) c /\
               length c = length (kernel r)) /\
  ((exists e, In e (grid r) /\ f e < 0) ->
     exists i e, fold r f = FErr (NegativeFlux i e) /\
                 nth_error (grid r) i = Some e /\ f e < 0).
Proof.
  split.
  - intros Hf. unfold fold. rewrite first_negative_none by exact Hf.
    eexists. split; [reflexivity|]. split; [|apply length_map].
    apply Forall_map. eapply Forall_impl; [|exact Hkernel].
    intros row Hrow. apply Qmult_le_0_compat; [exact Hexp|].
    apply dot_nonneg; [exact Hrow|].
    apply qmap2_mult_nonneg; [exact Harea | apply trapz_nonneg; assumption].
  - intros (e & Hin & Hneg). unfold fold.
    destruct (first_negative_found f 0 (grid r) e Hin Hneg) as (j & e' & E).
    rewrite E. destruct (first_negative_some f 0 (grid r) j e' E) as (d & -> & Hd & Hn).
    exists d, e'. split; [reflexivity | split; assumption].
Qed.

Lemma fold_nonneg_or_model_error_witness :
  LocallySorted Qle [1; 2; 4] /\ Forall (Qle 0) [1; 1] /\
  Forall (Forall (Qle 0)) [[1; 0]; [1 # 2; 1 # 2]] /\ 0 <= 10 /\
  exists i e, fold (mk_response [1; 2; 4] [1; 1] [[1; 0]; [1 # 2; 1 # 2]] 10)
                (fun x => 3 - x) = FErr (NegativeFlux i e) /\
              nth_error [1; 2; 4] i = Some e /\ (3 - e) < 0.
Proof.
  assert (Hs : LocallySorted Qle [1; 2; 4])
    by (repeat constructor; apply Qle_bool_iff; reflexivity).
  assert (Ha : Forall (Qle 0) [1; 1])
    by (repeat constructor; apply Qle_bool_iff; reflexivity).
  assert (Hk : Forall (Forall (Qle 0)) [[1; 0]; [1 # 2; 1 # 2]])
    by (repeat constructor; apply Qle_bool_iff; reflexivity).
  assert (He : 0 <= 10) by (apply Qle_bool_iff; reflexivity).
  split; [exact Hs|]. split; [exact Ha|]. split; [exact Hk|]. split; [exact He|].
  apply (proj2 (fold_nonneg_or_model_error
                  (mk_response [1; 2; 4] [1; 1] [[1; 0]; [1 # 2; 1 # 2]] 10)
                  (fun x => 3 - x) Hs Ha Hk He)).
  exists 4. split; [simpl; auto|]. reflexivity.
Defined.

Example fold_ok_ex :
  match fold (mk_response [1; 2; 4] [1; 1] [[1; 0]; [1 # 2; 1 # 2]] 10)
              (fun x => 5 - x) with
  | FOk [a; b] => a == 35 /\ b == 75 # 2
  | _ => False
  end.
Proof. vm_compute. split; reflexivity. Qed.

End FoldFacts.

Module TimeBinsFacts.
Import TimeBins.
Local Open Scope Q_scope.

Lemma existsb_eqb_in (j : nat) (l : list nat) :
  existsb (Nat.eqb j) l = true <-> In j l.
Proof.
  rewrite existsb_exists. split.
  - intros (x & Hx & E). apply Nat.eqb_eq in E. subst. exact Hx.
  - intros H. exists j. split; [exact H | apply Nat.eqb_refl].
Qed.

Lemma bad_bins_from_ge (bins : list (Q * Q)) (i j : nat) :
  In j (bad_bins_from i bins) -> (i <= j)%nat.
Proof.
  revert i. induction bins as [|b bs IH]; intros i H; simpl in H; [destruct H|].
  destruct (is_narrow b); [destruct H as [<-|H]; [lia|]|];
    apply IH in H; lia.
Qed.

Lemma bad_bins_from_spec (bins : list (Q * Q)) (i k : nat) (b : Q * Q) :
  nth_error bins k = Some b ->
  existsb (Nat.eqb (i + k)) (bad_bins_from i bins) = is_narrow b.
Proof.
  revert i k. induction bins as [|b0 bs IH]; intros i k H; [destruct k; discriminate|].
  destruct k as [|k]; simpl in H.
  - inversion H; subst. rewrite Nat.add_0_r. simpl.
    assert (Hn : existsb (Nat.eqb i) (bad_bins_from (S i) bs) = false).
    { destruct (existsb (Nat.eqb i) (bad_bins_from (S i) bs)) eqn:E; [|reflexivity].
      apply existsb_eqb_in, bad_bins_from_ge in E. lia. }
    destruct (is_narrow b); simpl; [rewrite Nat.eqb_refl; reflexivity | exact Hn].
  - specialize (IH (S i) k H). replace (S i + k)%nat with (i + S k)%nat in IH by lia.
    simpl. destruct (is_narrow b0); simpl; [|exact IH].
    replace (i + S k =? i)%nat with false by (symmetry; apply Nat.eqb_neq; lia).
    exact IH.
Qed.

Lemma good_stops_filter (bins : list (Q * Q)) (i : nat) (bad : list nat) :
  (forall k b, nth_error bins k = Some b ->
     existsb (Nat.eqb (i + k)) bad = is_narrow b) ->
  good_stops i bad bins = map snd (filter wide bins).
Proof.
  revert i. induction bins as [|b bs IH]; intros i H; [reflexivity|].
  simpl. pose proof (H 0%nat b eq_refl) as H0. rewrite Nat.add_0_r in H0.
  rewrite H0. unfold wide at 1.
  assert (Ht : good_stops (S i) bad bs = map snd (filter wide bs)).
  { apply IH. intros k b' Hk. replace (S i + k)%nat with (i + S k)%nat by lia.
    apply (H (S k) b' Hk). }
  destruct (is_narrow b); simpl; rewrite Ht; reflexivity.
Qed.

Lemma custom_edges_eq (b0 : Q * Q) (rest : list (Q * Q)) :
  custom_edges (b0 :: rest) =
  Some (fst b0 :: map snd (filter wide (b0 :: rest))).
Proof.
  unfold custom_edges. f_equal. f_equal. apply good_stops_filter.
  intros k b Hk. apply (bad_bins_from_spec _ 0 k b Hk).
Qed.

(** Spike removal keeps exactly the wide bins' stops: the stops passed to
    [create_time_bins] are the stops of the bins at least [5E-2] wide, in
    order, and the starts are the first original start followed by all but
    the last of those stops, so narrow bins are absorbed into the next wide
    bin. *)
Theorem spike_free_bins_edges (b0 : Q * Q) (rest : list (Q * Q)) :
  spike_free_bins (b0 :: rest) =
  Some (removelast (fst b0 :: map snd (filter wide (b0 :: rest))),
        map snd (filter wide (b0 :: rest))).
Proof. unfold spike_free_bins. rewrite custom_edges_eq. reflexivity. Qed.

Lemma nth_error_removelast {A : Type} (l : list A) (j : nat) (x : A) :
  nth_error (removelast l) j = Some x -> nth_error l j = Some x.
Proof.
  revert j. induction l as [|a l IH]; intros j H; [destruct j; discriminate|].
  destruct l as [|a' l']; [destruct j; discriminate|].
  destruct j; [exact H | apply IH; exact H].
Qed.

Lemma edge_gaps (bins : list (Q * Q)) (L : Q) :
  ordered_bins bins ->
  match bins with b :: _ => L <= fst b | [] => True end ->
  forall j s t, nth_error (L :: map snd (filter wide bins)) j = Some s ->
    nth_error (map snd (filter wide bins)) j = Some t -> min_width <= t - s.
Proof.
  revert L. induction bins as [|b bs IH]; intros L Ho HL j s t Hs Ht;
    [destruct j; discriminate|].
  destruct Ho as (Hb & Hn & Ho).
  assert (Hnext : forall L', L' <= snd b ->
            match bs with b' :: _ => L' <= fst b' | [] => True end).
  { intros L' HL'. destruct bs as [|b' bs']; [exact I|].
    apply (Qle_trans _ (snd b)); assumption. }
  simpl in Hs, Ht. unfold wide at 1 in Hs. unfold wide at 1 in Ht.
  destruct (is_narrow b) eqn:Ew; simpl in Hs, Ht.
  - apply (IH L Ho (Hnext L (Qle_trans _ _ _ HL Hb)) j s t Hs Ht).
  - destruct j as [|j].
    + inversion Hs; inversion Ht; subst.
      unfold is_narrow in Ew. apply negb_false_iff, Qle_bool_iff in Ew.
      unfold width in Ew.
      apply (Qle_trans _ (snd b - fst b)); [exact Ew|].
      apply Qplus_le_compat; [apply Qle_refl | apply Qopp_le_compat; exact HL].
    + apply (IH (snd b) Ho (Hnext (snd b) (Qle_refl _)) j s t Hs Ht).
Qed.

(** For bins in time order, every bin produced by the spike removal is at
    least [5E-2] wide: each new bin contains a whole wide original bin. *)
Theorem spike_free_bins_wide (bins : list (Q * Q)) (starts stops : list Q)
  (Hord : ordered_bins bins)
  (Hres : spike_free_bins bins = Some (starts, stops)) :
  forall j s t, nth_error starts j = Some s -> nth_error stops j = Some t ->
    min_width <= t - s.
Proof.
  destruct bins as [|b0 rest]; [discriminate|].
  rewrite spike_free_bins_edges in Hres.
  remember (map snd (filter wide (b0 :: rest))) as es eqn:Ees.
  injection Hres as <- <-.
  intros j s t Hs Ht.
  change (nth_error (removelast (fst b0 :: es)) j = Some s) in Hs.
  apply nth_error_removelast in Hs. subst es.
  apply (edge_gaps (b0 :: rest) (fst b0) Hord (Qle_refl _) j s t Hs Ht).
Qed.

Lemma combine_edges_contiguous (bins : list (Q * Q)) (L : Q) :
  match bins with b :: _ => L = fst b | [] => True end ->
  contiguous bins ->
  combine (removelast (L :: map snd bins)) (map snd bins) = bins.
Proof.
  revert L. induction bins as [|b bs IH]; intros L HL Hc; [reflexivity|].
  destruct bs as [|b' bs'].
  - simpl. subst L. destruct b; reflexivity.
  - destruct Hc as [Hbb Hc].
    change ((L, snd b) :: combine (removelast (snd b :: map snd (b' :: bs')))
              (map snd (b' :: bs')) = b :: b' :: bs').
    rewrite (IH (snd b) Hbb Hc). subst L. destruct b; reflexivity.
Qed.

(** A contiguous binning without any bin narrower than [5E-2] is passed on
    unchanged. *)
Theorem spike_free_bins_identity (bins : list (Q * Q)) (starts stops : list Q)
  (Hwide : Forall (fun b => is_narrow b = false) bins)
  (Hcont : contiguous bins)
  (Hres : spike_free_bins bins = Some (starts, stops)) :
  combine starts stops = bins.
Proof.
  destruct bins as [|b0 rest]; [discriminate|].
  rewrite spike_free_bins_edges in Hres.
  assert (Hf : filter wide (b0 :: rest) = b0 :: rest).
  { clear Hres Hcont. induction Hwide as [|b bs Hb Hbs IH]; [reflexivity|].
    simpl. unfold wide at 1. rewrite Hb. simpl. rewrite IH. reflexivity. }
  rewrite Hf in Hres.
  assert (Hst : removelast (fst b0 :: map snd (b0 :: rest)) = starts /\
                map snd (b0 :: rest) = stops) by (inversion Hres; split; reflexivity).
  destruct Hst as [<- <-].
  apply combine_edges_contiguous; [reflexivity | exact Hcont].
Qed.

(** Edge behaviour: an empty binning makes [n3.bins.starts[0]] fail, and a
    binning made only of narrow bins yields no bins at all. *)
Theorem spike_free_bins_degenerate (bins : list (Q * Q)) :
  spike_free_bins [] = None /\
  (bins <> [] -> Forall (fun b => is_narrow b = true) bins ->
     spike_free_bins bins = Some ([], [])).
Proof.
  split; [reflexivity|]. intros Hne Hn.
  destruct bins as [|b0 rest]; [contradiction|].
  rewrite spike_free_bins_edges.
  assert (Hf : filter wide (b0 :: rest) = []).
  { clear Hne. induction Hn as [|b bs Hb Hbs IH]; [reflexivity|].
    simpl. unfold wide at 1. rewrite Hb. simpl. exact IH. }
  rewrite Hf. reflexivity.
Qed.

Lemma spike_free_bins_wide_witness :
  ordered_bins [(0, 1#100); (1#100, 1#2); (1#2, 52#100)] /\
  spike_free_bins [(0, 1#100); (1#100, 1#2); (1#2, 52#100)] = Some ([0], [1#2]) /\
  min_width <= (1#2) - 0.
Proof.
  assert (Hord : ordered_bins [(0, 1#100); (1#100, 1#2); (1#2, 52#100)]).
  { simpl. repeat split; apply Qle_bool_iff; reflexivity. }
  assert (Hres : spike_free_bins [(0, 1#100); (1#100, 1#2); (1#2, 52#100)]
                 = Some ([0], [1#2])) by (vm_compute; reflexivity).
  split; [exact Hord|]. split; [exact Hres|].
  exact (spike_free_bins_wide _ _ _ Hord Hres 0 0 (1#2) eq_refl eq_refl).
Defined.

Lemma spike_free_bins_identity_witness :
  Forall (fun b => is_narrow b = false) [(0, 1); (1, 2)] /\
  contiguous [(0, 1); (1, 2)] /\
  spike_free_bins [(0, 1); (1, 2)] = Some ([0; 1], [1; 2]) /\
  combine [0; 1] [1; 2] = [(0, 1); (1, 2)].
Proof.
  assert (Hw : Forall (fun b => is_narrow b = false) [(0, 1); (1, 2)])
    by (repeat constructor).
  assert (Hc : contiguous [(0, 1); (1, 2)]) by (simpl; split; reflexivity).
  assert (Hres : spike_free_bins [(0, 1); (1, 2)] = Some ([0; 1], [1; 2]))
    by (vm_compute; reflexivity).
  split; [exact Hw|]. split; [exact Hc|]. split; [exact Hres|].
  exact (spike_free_bins_identity _ _ _ Hw Hc Hres).
Defined.

Lemma spike_free_bins_degenerate_witness :
  [(0, 1#100)] <> [] /\
  Forall (fun b => is_narrow b = true) [(0, 1#100)] /\
  spike_free_bins [(0, 1#100)] = Some ([], []).
Proof.
  assert (Hne : [(0, 1#100)] <> []) by discriminate.
  assert (Hn : Forall (fun b => is_narrow b = true) [(0, 1#100)])
    by (repeat constructor).
  split; [exact Hne|]. split; [exact Hn|].
  exact (proj2 (spike_free_bins_degenerate [(0, 1#100)]) Hne Hn).
Defined.

End TimeBinsFacts.

Module PowerLawFacts.
Import PowerLaw.
Local Open Scope R_scope.

Lemma Rpower_1_base (e : R) : Rpower 1 e = 1.
Proof. unfold Rpower. rewrite ln_1, Rmult_0_r. apply exp_0. Qed.

(** [K] is the differential flux at the pivot: for a non-zero pivot,
    evaluating at [x = piv] returns exactly [K], whatever the index. *)
Theorem evaluate_at_pivot (K piv index : R) (Hpiv : piv <> 0) :
  evaluate piv K piv index = Num K.
Proof.
  unfold evaluate, np_divide, np_power.
  destruct (Req_EM_T piv 0) as [E|_]; [contradiction|].
  rewrite (Rdiv_diag piv Hpiv).
  destruct (Req_EM_T index 0) as [_|_]; simpl; [rewrite Rmult_1_r; reflexivity|].
  destruct (Rlt_dec 0 1) as [_|N]; [|exfalso; apply N, Rlt_0_1].
  simpl. rewrite Rpower_1_base, Rmult_1_r. reflexivity.
Qed.

(** A zero pivot does not raise: with a zero index the result is still
    [K] (as [pow(v, 0) = 1] even for inf and nan), and for a non-zero
    energy and a negative index the infinite ratio [x / 0] is raised to a
    negative power and the result is zero. *)
Theorem evaluate_zero_pivot (x K index : R) :
  evaluate x K 0 0 = Num K /\
  (x <> 0 -> index < 0 -> evaluate x K 0 index = Num 0).
Proof.
  split.
  - unfold evaluate, np_power. destruct (Req_EM_T 0 0) as [_|N]; [|contradiction].
    simpl. rewrite Rmult_1_r. reflexivity.
  - intros Hx Hi. unfold evaluate, np_divide, np_power.
    destruct (Req_EM_T 0 0) as [_|N]; [|contradiction].
    destruct (Req_EM_T index 0) as [E|_]; [lra|].
    destruct (Rlt_dec 0 x) as [_|Nx].
    + destruct (Rlt_dec 0 index) as [P|_]; [lra|]. simpl. rewrite Rmult_0_r. reflexivity.
    + destruct (Rlt_dec x 0) as [_|N]; [|lra].
      destruct (Rlt_dec 0 index) as [P|_]; [lra|].
      destruct (odd_int index); simpl; [reflexivity|]. rewrite Rmult_0_r. reflexivity.
Qed.

Lemma evaluate_at_pivot_witness :
  (2 <> 0) /\ evaluate 2 3 2 (-2) = Num 3.
Proof.
  assert (H : 2 <> 0) by lra.
  split; [exact H | exact (evaluate_at_pivot 3 2 (-2) H)].
Defined.

Lemma evaluate_zero_pivot_witness :
  -5 <> 0 /\ -2 < 0 /\ evaluate (-5) 3 0 (-2) = Num 0.
Proof.
  assert (Hx : -5 <> 0) by lra. assert (Hi : -2 < 0) by lra.
  split; [exact Hx|]. split; [exact Hi|].
  exact (proj2 (evaluate_zero_pivot (-5) 3 (-2)) Hx Hi).
Defined.

End PowerLawFacts.

Module HawcDownloadFacts.
Import HawcDownload.
Import String.
Local Open Scope string_scope.

Lemma existsb_filter_neq (l : list (string * string)) (p q : string) :
  existsb (fun e => String.eqb (fst e) q)
    (List.filter (fun e => negb (String.eqb (fst e) p)) l) =
  negb (String.eqb q p) && existsb (fun e => String.eqb (fst e) q) l.
Proof.
  induction l as [|e es IH]; simpl; [destruct (String.eqb q p); reflexivity|].
  destruct (String.eqb_spec (fst e) p) as [Ep|Ep]; simpl;
  destruct (String.eqb_spec (fst e) q) as [Eq|Eq]; simpl; rewrite ?IH;
  destruct (String.eqb_spec q p); simpl; try reflexivity; congruence.
Qed.

Lemma path_exists_write (w : world) (p body q : string) :
  path_exists (write_file w p body) q =
  String.eqb p q || (negb (String.eqb q p) && path_exists w q).
Proof.
  unfold path_exists, write_file; simpl. f_equal. apply existsb_filter_neq.
Qed.

Lemma read_file_write (w : world) (p body q : string) :
  read_file (write_file w p body) q =
  if String.eqb p q then Some body else read_file w q.
Proof.
  unfold read_file, write_file; simpl.
  destruct (String.eqb p q) eqn:Epq; [reflexivity|].
  induction (files w) as [|e es IH]; [reflexivity|]. simpl.
  destruct (String.eqb (fst e) p) eqn:Ep; simpl.
  - rewrite IH. apply String.eqb_eq in Ep. subst p.
    rewrite Epq. reflexivity.
  - destruct (String.eqb (fst e) q); [reflexivity | exact IH].
Qed.

(** [get_hawc_file] returns [odir + filename], and when it returns, a file
    exists at that path (whether it was already there or just written). *)
Theorem get_hawc_file_path_exists (fetch : string -> response)
  (filename dir : string) (overwrite : bool) (w w' : world) (p : string)
  (Hret : get_hawc_file fetch filename dir overwrite w = (w', Some p)) :
  p = dir ++ filename /\ path_exists w' p = true.
Proof.
  unfold get_hawc_file in Hret.
  destruct (overwrite || negb (path_exists w (dir ++ filename))) eqn:Ec.
  - destruct (fetch (url ++ filename)) as [|body|partial]; try discriminate.
    inversion Hret; subst. split; [reflexivity|].
    rewrite path_exists_write, String.eqb_refl. reflexivity.
  - inversion Hret; subst. split; [reflexivity|].
    apply Bool.orb_false_iff in Ec. destruct Ec as [_ Ec].
    apply Bool.negb_false_iff in Ec. exact Ec.
Qed.

Lemma get_hawc_file_cached (fetch : string -> response)
  (filename dir : string) (w : world) :
  path_exists w (dir ++ filename) = true ->
  get_hawc_file fetch filename dir false w = (w, Some (dir ++ filename)).
Proof. intros Hex. unfold get_hawc_file. rewrite Hex. reflexivity. Qed.

(** With a complete download, the file at [odir + filename] holds the
    downloaded body and every other file is left as it was; the request
    goes to the data-set URL followed by the file name. *)
Theorem get_hawc_file_download (fetch : string -> response)
  (filename dir : string) (overwrite : bool) (w : world) (body : string)
  (Hneed : overwrite || negb (path_exists w (dir ++ filename)) = true)
  (Hfetch : fetch (url ++ filename) = Complete body) :
  let w' := fst (get_hawc_file fetch filename dir overwrite w) in
  requests w' = (url ++ filename) :: requests w /\
  read_file w' (dir ++ filename) = Some body /\
  forall q, q <> dir ++ filename -> read_file w' q = read_file w q.
Proof.
  unfold get_hawc_file. rewrite Hneed, Hfetch. simpl.
  split; [reflexivity|]. split.
  - rewrite read_file_write, String.eqb_refl. reflexivity.
  - intros q Hq. rewrite read_file_write.
    destruct (String.eqb (dir ++ filename) q) eqn:E; [|reflexivity].
    apply String.eqb_eq in E. congruence.
Qed.

(** A download interrupted during the streamed copy makes the call raise,
    but the file has already been created or truncated and holds only the
    part received; a later call without [overwrite] then finds it, sends
    no request and returns it as if it were complete. *)
Theorem get_hawc_file_interrupted (fetch : string -> response)
  (filename dir : string) (overwrite : bool) (w : world) (partial : string)
  (Hneed : overwrite || negb (path_exists w (dir ++ filename)) = true)
  (Hfetch : fetch (url ++ filename) = Interrupted partial) :
  let w' := fst (get_hawc_file fetch filename dir overwrite w) in
  snd (get_hawc_file fetch filename dir overwrite w) = None /\
  read_file w' (dir ++ filename) = Some partial /\
  get_hawc_file fetch filename dir false w' = (w', Some (dir ++ filename)).
Proof.
  cbv zeta. split; [unfold get_hawc_file; rewrite Hneed, Hfetch; reflexivity|].
  assert (Hw : fst (get_hawc_file fetch filename dir overwrite w) =
     write_file {| files := files w; requests := (url ++ filename) :: requests w |}
       (dir ++ filename) partial)
    by (unfold get_hawc_file; rewrite Hneed, Hfetch; reflexivity).
  rewrite Hw. split.
  - rewrite read_file_write, String.eqb_refl. reflexivity.
  - apply get_hawc_file_cached.
    rewrite path_exists_write, String.eqb_refl. reflexivity.
Qed.

(** When the cell completes, both asserts [os.path.exists(maptree)] and
    [os.path.exists(response)] hold: writing the response file never
    removes the maptree file. *)
Theorem fetch_crab_data_asserts (fetch : string -> response)
  (w w' : world) (maptree response : string)
  (Hret : fetch_crab_data fetch w = (w', Some (maptree, response))) :
  maptree = odir ++ maptree_file /\ response = odir ++ response_file /\
  path_exists w' maptree = true /\ path_exists w' response = true.
Proof.
  unfold fetch_crab_data in Hret.
  destruct (get_hawc_file fetch maptree_file odir false w) as [w1 [m|]] eqn:E1;
    [|discriminate].
  destruct (get_hawc_file fetch response_file odir false w1) as [w2 [r|]] eqn:E2;
    [|discriminate].
  inversion Hret; subst.
  destruct (get_hawc_file_path_exists _ _ _ _ _ _ _ E1) as [Hm Hm1].
  destruct (get_hawc_file_path_exists _ _ _ _ _ _ _ E2) as [Hr Hr2].
  subst. split; [reflexivity|]. split; [reflexivity|]. split; [|exact Hr2].
  unfold get_hawc_file in E2.
  destruct (false || negb (path_exists w1 (odir ++ response_file)));
    [|inversion E2; subst; exact Hm1].
  destruct (fetch (url ++ response_file)); inversion E2; subst.
  rewrite path_exists_write. apply Bool.orb_true_iff. right.
  apply andb_true_intro. split; [reflexivity | exact Hm1].
Qed.

(** Re-running the cell once it has completed sends no request and
    changes nothing. *)
Theorem fetch_crab_data_rerun (fetch : string -> response)
  (w w' : world) (maptree response : string)
  (Hret : fetch_crab_data fetch w = (w', Some (maptree, response))) :
  fetch_crab_data fetch w' = (w', Some (maptree, response)).
Proof.
  destruct (fetch_crab_data_asserts _ _ _ _ _ Hret) as (-> & -> & Hm & Hr).
  unfold fetch_crab_data.
  rewrite (get_hawc_file_cached fetch maptree_file odir w' Hm).
  rewrite (get_hawc_file_cached fetch response_file odir w' Hr).
  reflexivity.
Qed.

Lemma get_hawc_file_path_exists_witness :
  get_hawc_file ok_fetch maptree_file odir false empty_world =
    (fst (get_hawc_file ok_fetch maptree_file odir false empty_world),
     Some (odir ++ maptree_file)) /\
  odir ++ maptree_file = odir ++ maptree_file /\
  path_exists (fst (get_hawc_file ok_fetch maptree_file odir false empty_world))
    (odir ++ maptree_file) = true.
Proof.
  assert (H : get_hawc_file ok_fetch maptree_file odir false empty_world =
    (fst (get_hawc_file ok_fetch maptree_file odir false empty_world),
     Some (odir ++ maptree_file))) by (vm_compute; reflexivity).
  split; [exact H|].
  exact (get_hawc_file_path_exists ok_fetch maptree_file odir false empty_world _ _ H).
Defined.

Lemma get_hawc_file_download_witness :
  (true || negb (path_exists {| files := [("./a", "old")]; requests := [] |} ("./" ++ "a")) = true) /\
  ok_fetch (url ++ "a") = Complete "hd5" /\
  read_file (fst (get_hawc_file ok_fetch "a" "./" true
                    {| files := [("./a", "old")]; requests := [] |})) ("./" ++ "a")
  = Some "hd5".
Proof.
  assert (Hn : (true || negb (path_exists {| files := [("./a", "old")]; requests := [] |}
                                ("./" ++ "a")) = true)) by reflexivity.
  assert (Hf : ok_fetch (url ++ "a") = Complete "hd5") by reflexivity.
  split; [exact Hn|]. split; [exact Hf|].
  exact (proj1 (proj2 (get_hawc_file_download ok_fetch "a" "./" true _ "hd5" Hn Hf))).
Defined.

Lemma get_hawc_file_interrupted_witness :
  (false || negb (path_exists empty_world (odir ++ maptree_file)) = true) /\
  (fun _ : string => Interrupted "hd") (url ++ maptree_file) = Interrupted "hd" /\
  snd (get_hawc_file (fun _ => Interrupted "hd") maptree_file odir false empty_world)
    = None /\
  read_file (fst (get_hawc_file (fun _ => Interrupted "hd") maptree_file odir false
                    empty_world)) (odir ++ maptree_file) = Some "hd".
Proof.
  assert (Hn : false || negb (path_exists empty_world (odir ++ maptree_file)) = true)
    by reflexivity.
  assert (Hf : (fun _ : string => Interrupted "hd") (url ++ maptree_file)
               = Interrupted "hd") by reflexivity.
  split; [exact Hn|]. split; [exact Hf|].
  destruct (get_hawc_file_interrupted (fun _ => Interrupted "hd") maptree_file odir
              false empty_world "hd" Hn Hf) as (H1 & H2 & _).
  split; [exact H1 | exact H2].
Defined.

Lemma fetch_crab_data_asserts_witness :
  fetch_crab_data ok_fetch empty_world =
    (fst (fetch_crab_data ok_fetch empty_world),
     Some (odir ++ maptree_file, odir ++ response_file)) /\
  path_exists (fst (fetch_crab_data ok_fetch empty_world))
    (odir ++ response_file) = true.
Proof.
  assert (H : fetch_crab_data ok_fetch empty_world =
    (fst (fetch_crab_data ok_fetch empty_world),
     Some (odir ++ maptree_file, odir ++ response_file)))
    by (vm_compute; reflexivity).
  split; [exact H|].
  exact (proj2 (proj2 (proj2 (fetch_crab_data_asserts ok_fetch empty_world _ _ _ H)))).
Defined.

Lemma fetch_crab_data_rerun_witness :
  fetch_crab_data ok_fetch empty_world =
    (fst (fetch_crab_data ok_fetch empty_world),
     Some (odir ++ maptree_file, odir ++ response_file)) /\
  fetch_crab_data ok_fetch (fst (fetch_crab_data ok_fetch empty_world)) =
    (fst (fetch_crab_data ok_fetch empty_world),
     Some (odir ++ maptree_file, odir ++ response_file)).
Proof.
  assert (H : fetch_crab_data ok_fetch empty_world =
    (fst (fetch_crab_data ok_fetch empty_world),
     Some (odir ++ maptree_file, odir ++ response_file)))
    by (vm_compute; reflexivity).
  split; [exact H | exact (fetch_crab_data_rerun ok_fetch empty_world _ _ _ H)].
Defined.

End HawcDownloadFacts.

Module SourcePlotFacts.
Import SourcePlot.
Import String.
Local Open Scope nat_scope.
Local Open Scope string_scope.

Lemma prefix_spec (p s : string) :
  String.prefix p s = true <-> exists post, s = p ++ post.
Proof.
  revert s. induction p as [|a p IH]; intros s.
  - destruct s; simpl; split; intros; try reflexivity; eauto.
  - destruct s as [|b s]; simpl.
    + split; [discriminate | intros [post H]; discriminate].
    + destruct (Ascii.ascii_dec a b) as [<-|Hab].
      * rewrite IH. split; intros [post H]; exists post; congruence.
      * split; [discriminate | intros [post H]; congruence].
Qed.

(** [src in source_name] is the substring test. *)
Theorem contains_spec (pat s : string) :
  contains pat s = true <-> exists pre post, s = pre ++ pat ++ post.
Proof.
  induction s as [|c s IH].
  - cbn [contains]. rewrite Bool.orb_false_r, prefix_spec. split.
    + intros [post H]. exists "", post. exact H.
    + intros [pre [post H]]. destruct pre; [exists post; exact H | discriminate].
  - cbn [contains]. rewrite Bool.orb_true_iff, prefix_spec, IH. split.
    + intros [[post H] | [pre [post H]]].
      * exists "", post. exact H.
      * exists (String c pre), post. simpl. congruence.
    + intros [pre [post H]]. destruct pre as [|c' pre].
      * left. exists post. exact H.
      * right. exists pre, post. simpl in H. congruence.
Qed.

Lemma in_plot_for_patterns (pats : list string) (ps : point_source)
  (l : plot_line) :
  In l (plot_for_patterns pats ps) ->
  In l (plot_source ps) /\
  existsb (fun p => contains p (source_name ps)) pats = true.
Proof.
  induction pats as [|p pats IH]; simpl; [contradiction|].
  intros H. apply in_app_or in H. destruct H as [H|H].
  - destruct (contains p (source_name ps)); [|contradiction].
    split; [exact H | reflexivity].
  - destruct (IH H) as [H1 H2]. split; [exact H1|].
    rewrite H2. apply Bool.orb_true_r.
Qed.

(** Only the sources whose name contains one of the patterns are drawn:
    every line, total or component, belongs to such a source. *)
Theorem plot_only_matching (pats : list string) (srcs : list point_source)
  (l : plot_line) (Hl : In l (plot_sources pats srcs)) :
  exists ps, In ps srcs /\ line_source l = source_name ps /\
    existsb (fun p => contains p (source_name ps)) pats = true.
Proof.
  unfold plot_sources in Hl. apply in_flat_map in Hl.
  destruct Hl as [ps [Hps Hl]]. destruct (in_plot_for_patterns _ _ _ Hl) as [H1 H2].
  exists ps. split; [exact Hps|]. split; [|exact H2].
  unfold plot_source in H1. destruct H1 as [<-|H1]; [reflexivity|].
  destruct (Nat.ltb 1 (List.length (components ps))); [|contradiction].
  apply in_map_iff in H1. destruct H1 as [c [<- _]]. reflexivity.
Qed.

(** Component lines are drawn only for sources with more than one
    component, and each one is a component of that source. *)
Theorem plot_components_only_if_several (pats : list string)
  (srcs : list point_source) (c n : string)
  (Hl : In (Component c n) (plot_sources pats srcs)) :
  exists ps, In ps srcs /\ source_name ps = n /\ In c (components ps) /\
    1 < List.length (components ps).
Proof.
  unfold plot_sources in Hl. apply in_flat_map in Hl.
  destruct Hl as [ps [Hps Hl]]. destruct (in_plot_for_patterns _ _ _ Hl) as [H1 _].
  exists ps. split; [exact Hps|].
  unfold plot_source in H1. destruct H1 as [H1|H1]; [discriminate|].
  destruct (Nat.ltb 1 (List.length (components ps))) eqn:E; [|contradiction].
  apply in_map_iff in H1. destruct H1 as [c' [Hc Hin]]. injection Hc as -> ->.
  split; [reflexivity|]. split; [exact Hin|]. apply Nat.ltb_lt. exact E.
Qed.

Lemma count_total_plot_source (ps : point_source) :
  List.length (List.filter is_total (plot_source ps)) = 1%nat.
Proof.
  unfold plot_source. simpl. f_equal.
  destruct (Nat.ltb 1 (List.length (components ps))); [|reflexivity].
  induction (components ps) as [|c cs IH]; [reflexivity | exact IH].
Qed.

Lemma count_total_plot_for_patterns (pats : list string) (ps : point_source) :
  List.length (List.filter is_total (plot_for_patterns pats ps)) =
  List.length (List.filter (fun p => contains p (source_name ps)) pats).
Proof.
  induction pats as [|p pats IH]; [reflexivity|]. simpl.
  rewrite filter_app, length_app, IH.
  destruct (contains p (source_name ps)); [|reflexivity].
  rewrite count_total_plot_source. reflexivity.
Qed.

(** A source is drawn once per pattern its name contains: with
    [['Crab', 'PSR_J0534p2200']], a name containing both is drawn twice. *)
Theorem plot_total_count (pats : list string) (srcs : list point_source) :
  List.length (List.filter is_total (plot_sources pats srcs)) =
  list_sum (List.map (fun ps =>
    List.length (List.filter (fun p => contains p (source_name ps)) pats)) srcs).
Proof.
  unfold plot_sources. induction srcs as [|ps srcs IH]; [reflexivity|].
  simpl. rewrite filter_app, length_app, IH, count_total_plot_for_patterns.
  reflexivity.
Qed.

Lemma plot_only_matching_witness :
  In (Total "Crab_PSR_J0534p2200") (plot_sources src_to_plot [crab_pulsar]) /\
  exists ps, In ps [crab_pulsar] /\
    line_source (Total "Crab_PSR_J0534p2200") = source_name ps /\
    existsb (fun p => contains p (source_name ps)) src_to_plot = true.
Proof.
  assert (H : In (Total "Crab_PSR_J0534p2200")
                 (plot_sources src_to_plot [crab_pulsar])) by (vm_compute; left; reflexivity).
  split; [exact H | exact (plot_only_matching _ _ _ H)].
Defined.

Lemma plot_components_only_if_several_witness :
  In (Component "cutoff" "Crab_PSR_J0534p2200")
     (plot_sources src_to_plot [crab_pulsar]) /\
  exists ps, In ps [crab_pulsar] /\ source_name ps = "Crab_PSR_J0534p2200" /\
    In "cutoff" (components ps) /\ 1 < List.length (components ps).
Proof.
  assert (H : In (Component "cutoff" "Crab_PSR_J0534p2200")
                 (plot_sources src_to_plot [crab_pulsar]))
    by (vm_compute; right; right; left; reflexivity).
  split; [exact H | exact (plot_components_only_if_several _ _ _ _ H)].
Defined.

End SourcePlotFacts.

Module VariatesFacts.
Import Variates.
Import String.
Local Open Scope nat_scope.

Lemma dict_set_in {V : Type} (d : list (string * V)) (k0 : string) (v0 : V)
  (k : string) (v : V) :
  In (k, v) (dict_set d k0 v0) -> In (k, v) d \/ (k, v) = (k0, v0).
Proof.
  induction d as [|[k' v'] d IH]; simpl.
  - intros [H|[]]. right. symmetry. exact H.
  - destruct (String.eqb k' k0); simpl.
    + intros [H|H]; [right; symmetry; exact H | left; right; exact H].
    + intros [H|H]; [left; left; exact H|].
      destruct (IH H) as [H'|H']; [left; right; exact H' | right; exact H'].
Qed.

Lemma dict_set_keys {V : Type} (d : list (string * V)) (k0 : string) (v0 : V)
  (k : string) :
  In k (map fst (dict_set d k0 v0)) <-> In k (map fst d) \/ k = k0.
Proof.
  induction d as [|[k' v'] d IH]; simpl.
  - split; [intros [H|[]]; right; symmetry; exact H | intros [[]|H]; left; symmetry; exact H].
  - destruct (String.eqb_spec k' k0) as [E|E]; simpl.
    + subst k'. split; [intros [H|H]; [left; left; exact H | left; right; exact H]|].
      intros [[H|H]|H]; [left; exact H | right; exact H | left; symmetry; exact H].
    + rewrite IH. tauto.
Qed.

Lemma dict_set_nodup {V : Type} (d : list (string * V)) (k0 : string) (v0 : V) :
  NoDup (map fst d) -> NoDup (map fst (dict_set d k0 v0)).
Proof.
  induction d as [|[k' v'] d IH]; simpl; intros Hd.
  - constructor; [intros []| constructor].
  - inversion Hd as [|x l Hn Hd']; subst.
    destruct (String.eqb_spec k' k0) as [E|E]; simpl.
    + subst k'. constructor; assumption.
    + constructor; [|exact (IH Hd')].
      rewrite dict_set_keys. intros [H|H]; [exact (Hn H) | exact (E H)].
Qed.

Section Gather.

Context {A : Type}.
Variable get_variates : string -> list A.
Variable rand : nat -> nat.

Lemma choice_spec (a : list A) (size st : nat) :
  a <> [] ->
  List.length (fst (choice rand a size st)) = size /\
  incl (fst (choice rand a size st)) a /\
  snd (choice rand a size st) = st + size.
Proof.
  intros Ha. destruct a as [|d a']; [contradiction|]. unfold choice. cbn [fst snd].
  split; [rewrite length_map, length_seq; reflexivity|]. split; [|reflexivity].
  intros x Hx. apply in_map_iff in Hx. destruct Hx as [k [<- _]].
  apply nth_In. apply Nat.mod_upper_bound. discriminate.
Qed.

Lemma step_value_spec (p : parameter) (st : nat) :
  let r := if max_variates <? List.length (get_variates (path p))
           then choice rand (get_variates (path p)) max_variates st
           else (get_variates (path p), st) in
  List.length (fst r) <= max_variates /\ incl (fst r) (get_variates (path p)).
Proof.
  simpl. destruct (Nat.ltb_spec max_variates (List.length (get_variates (path p)))) as [H|H].
  - assert (Hne : get_variates (path p) <> []).
    { intros E. rewrite E in H. simpl in H. unfold max_variates in H. lia. }
    destruct (choice_spec (get_variates (path p)) max_variates st Hne) as (H1 & H2 & _).
    split; [rewrite H1; apply le_n | exact H2].
  - split; [exact H | apply incl_refl].
Qed.

Lemma gather_entries_gen (pars0 : list parameter) :
  forall pars args st, incl pars pars0 ->
  (forall k vs, In (k, vs) args ->
     exists p, In p pars0 /\ free p = true /\ name p = k /\
       List.length vs <= max_variates /\ incl vs (get_variates (path p))) ->
  forall k vs, In (k, vs) (fst (gather get_variates rand pars args st)) ->
     exists p, In p pars0 /\ free p = true /\ name p = k /\
       List.length vs <= max_variates /\ incl vs (get_variates (path p)).
Proof.
  induction pars as [|p ps IH]; intros args st Hinc Hargs; [exact Hargs|].
  assert (Hps : incl ps pars0) by (intros q Hq; apply Hinc; right; exact Hq).
  simpl. destruct (free p) eqn:Ef; [|apply IH; assumption].
  pose proof (step_value_spec p st) as Hs. simpl in Hs.
  destruct (if max_variates <? List.length (get_variates (path p))
            then choice rand (get_variates (path p)) max_variates st
            else (get_variates (path p), st)) as [v' st'].
  simpl in Hs. destruct Hs as [Hl Hi].
  apply IH; [exact Hps|]. intros k vs Hkv.
  destruct (dict_set_in _ _ _ _ _ Hkv) as [H|H]; [exact (Hargs k vs H)|].
  injection H as -> ->. exists p.
  split; [apply Hinc; left; reflexivity|]. repeat split; assumption.
Qed.

(** Every entry of [arguments] belongs to a free parameter of the
    function: it is keyed by that parameter's name and holds at most 1000
    values, all taken from the parameter's variates (never invented). *)
Theorem arguments_entries (pars : list parameter) (st : nat) (k : string)
  (vs : list A) (Hin : In (k, vs) (arguments get_variates rand pars st)) :
  exists p, In p pars /\ free p = true /\ name p = k /\
    List.length vs <= max_variates /\ incl vs (get_variates (path p)).
Proof.
  apply (gather_entries_gen pars pars [] st (incl_refl _)); [intros ? ? []|exact Hin].
Qed.

Lemma gather_keys (pars : list parameter) :
  forall args st k,
  In k (map fst (fst (gather get_variates rand pars args st))) <->
  In k (map fst args) \/ exists p, In p pars /\ free p = true /\ name p = k.
Proof.
  induction pars as [|p ps IH]; intros args st k; simpl.
  - split; [intros H; left; exact H|].
    intros [H|[p [[] _]]]; exact H.
  - destruct (free p) eqn:Ef.
    + destruct (if max_variates <? List.length (get_variates (path p))
                then choice rand (get_variates (path p)) max_variates st
                else (get_variates (path p), st)) as [v' st'].
      rewrite IH, dict_set_keys. split.
      * intros [[H|H]|[q [Hq Hf]]]; [left; exact H| |].
        -- right. exists p. split; [left; reflexivity|]. split; [exact Ef | symmetry; exact H].
        -- right. exists q. split; [right; exact Hq | exact Hf].
      * intros [H|[q [[<-|Hq] Hf]]]; [left; left; exact H| |].
        -- left. right. symmetry. apply Hf.
        -- right. exists q. split; [exact Hq | exact Hf].
    + rewrite IH. split.
      * intros [H|[q [Hq Hf]]]; [left; exact H|].
        right. exists q. split; [right; exact Hq | exact Hf].
      * intros [H|[q [[<-|Hq] Hf]]]; [left; exact H| |].
        -- destruct Hf as [Hf _]. congruence.
        -- right. exists q. split; [exact Hq | exact Hf].
Qed.

Lemma gather_nodup (pars : list parameter) :
  forall args st, NoDup (map fst args) ->
  NoDup (map fst (fst (gather get_variates rand pars args st))).
Proof.
  induction pars as [|p ps IH]; intros args st Hd; simpl; [exact Hd|].
  destruct (free p); [|apply IH; exact Hd].
  destruct (if max_variates <? List.length (get_variates (path p))
            then choice rand (get_variates (path p)) max_variates st
            else (get_variates (path p), st)) as [v' st'].
  apply IH, dict_set_nodup, Hd.
Qed.

(** The keys of [arguments] are exactly the names of the free parameters,
    each once: fixed parameters are never passed to the propagator. *)
Theorem arguments_keys (pars : list parameter) (st : nat) :
  NoDup (map fst (arguments get_variates rand pars st)) /\
  forall k, In k (map fst (arguments get_variates rand pars st)) <->
    exists p, In p pars /\ free p = true /\ name p = k.
Proof.
  split; [apply gather_nodup; constructor|].
  intros k. unfold arguments. rewrite gather_keys. simpl. tauto.
Qed.

End Gather.

Lemma arguments_entries_witness :
  In ("K"%string, [1; 2; 3]) (arguments (fun _ => [1; 2; 3]) (fun n => n) sample_pars 0) /\
  exists p, In p sample_pars /\ free p = true /\ name p = "K"%string /\
    List.length [1; 2; 3] <= max_variates /\ incl [1; 2; 3] [1; 2; 3].
Proof.
  assert (H : In ("K"%string, [1; 2; 3])
                 (arguments (fun _ => [1; 2; 3]) (fun n => n) sample_pars 0))
    by (vm_compute; left; reflexivity).
  split; [exact H | exact (arguments_entries _ _ _ _ _ _ H)].
Defined.

End VariatesFacts.
